(** * WebSocketRedisServer: the subscription router of
      src/web-socket-redis-server.ts

    The class keeps two indices, [globalSubscriptions] (topic to sockets) and
    [clientSubscriptions] (socket to topics), subscribes to one Redis channel
    per topic and fans every Redis message out to the sockets of the topic.

    The program runs on a single-threaded event loop.  An [async] method runs
    synchronously up to its first [await]; the rest of the method runs when
    the awaited Redis promise settles, and any other event may be handled in
    between.  The embedding keeps that granularity: one [Event] is one
    callback of the event loop, and a method suspended at an [await] is an
    entry of [pending] that a later [RedisReply] event resumes. *)

From stdpp Require Import gmap strings list fin_maps.
From stdpp Require Import pretty.

Local Open Scope string_scope.
Local Open Scope list_scope.

(** ** Run-time values *)

(** [stockSymbol] is declared [string], but it is whatever [JSON.parse]
    produced: the type annotation is erased.  A number is represented by the
    text [String(n)] gives, an object or array by its identity and the text
    its string conversion gives. *)
Inductive JsVal :=
| VUndefined
| VNull
| VBool (b : bool)
| VNum (repr : string)
| VStr (s : string)
| VRef (id : nat) (repr : string).

#[global] Instance JsVal_eq_dec : EqDecision JsVal.
Proof. solve_decision. Defined.

Definition JsVal_encode (v : JsVal)
  : unit + unit + bool + string + string + (nat * string) :=
  match v with
  | VUndefined => inl (inl (inl (inl (inl tt))))
  | VNull => inl (inl (inl (inl (inr tt))))
  | VBool b => inl (inl (inl (inr b)))
  | VNum r => inl (inl (inr r))
  | VStr s => inl (inr s)
  | VRef i r => inr (i, r)
  end.

Definition JsVal_decode
  (x : unit + unit + bool + string + string + (nat * string)) : JsVal :=
  match x with
  | inl (inl (inl (inl (inl _)))) => VUndefined
  | inl (inl (inl (inl (inr _)))) => VNull
  | inl (inl (inl (inr b))) => VBool b
  | inl (inl (inr r)) => VNum r
  | inl (inr s) => VStr s
  | inr (i, r) => VRef i r
  end.

#[global] Instance JsVal_countable : Countable JsVal.
Proof.
  apply (inj_countable' JsVal_encode JsVal_decode).
  by intros [].
Defined.

(** The text a template literal puts in place of [${v}]. *)
Definition toString (v : JsVal) : string :=
  match v with
  | VUndefined => "undefined"
  | VNull => "null"
  | VBool true => "true"
  | VBool false => "false"
  | VNum r => r
  | VStr s => s
  | VRef _ r => r
  end.

(** [`orderbook.${stockSymbol}`] *)
Definition channel (stockSymbol : JsVal) : string :=
  "orderbook." +:+ toString stockSymbol.

(** ** Sockets *)

(** A [WebSocket] object is identified by its allocation number. *)
Definition WebSocket := nat.

Inductive ReadyState := CONNECTING | OPEN | CLOSING | CLOSED.

#[global] Instance ReadyState_eq_dec : EqDecision ReadyState.
Proof. solve_decision. Defined.

(** ** JavaScript [Set]: insertion-ordered, without duplicates *)

Section JsSet.
Context {A : Type} `{EqDecision A}.

Definition Set_add (x : A) (l : list A) : list A :=
  if decide (x ∈ l) then l else l ++ [x].

Definition Set_delete (x : A) (l : list A) : list A :=
  filter (λ y, y ≠ x) l.

Definition Set_size (l : list A) : nat := length l.
End JsSet.

(** ** Observable effects *)

(** What a handler does to the outside: log lines (level and message; of the
    metadata only the three counters of the broadcast line are kept), frames
    handed to a socket, calls on the Redis client, and rejected promises
    nobody handles (what the runtime does with those is not modelled). *)

Inductive Level := info | debug | warn | error.

(** The object [broadcastToSubscribers] hands to [JSON.stringify]. *)
Record Envelope := {
  event : string;
  stockSymbol : JsVal;
  message : string;
}.

Inductive Effect :=
| Log (lvl : Level) (msg : string)
| LogBroadcast (successCount failCount totalSubscribers : nat)
| Send (client : WebSocket) (data : Envelope)
| RedisSubscribe (chan : string)
| RedisUnsubscribe (chan : string)
| UnhandledRejection.

#[global] Instance Level_eq_dec : EqDecision Level.
Proof. solve_decision. Defined.
#[global] Instance Envelope_eq_dec : EqDecision Envelope.
Proof. solve_decision. Defined.
#[global] Instance Effect_eq_dec : EqDecision Effect.
Proof. solve_decision. Defined.

(** ** Suspended methods *)

(** The statement after the [await] at which a method is suspended. *)
Inductive Resume :=
| AfterSubscribe (stockSymbol : JsVal)     (* handleSubscription, line 100 *)
| AfterUnsubscribe (stockSymbol : JsVal).  (* handleUnsubscription, line 131 *)

(** Who holds the promise of the suspended method: the [message] handler
    awaits it inside [try]/[catch]; [handleClientDisconnection] drops it. *)
Inductive Caller := FromMessage | FromDisconnection.

Inductive Completion :=
| Returned
| Thrown
| Awaiting (k : Resume).

(** ** State *)

Record State := {
  usersCount : Z;
  globalSubscriptions : gmap JsVal (list WebSocket);
  clientSubscriptions : gmap WebSocket (list JsVal);
  (* the environment *)
  readyState : gmap WebSocket ReadyState;
  nextSocket : nat;
  pending : gmap nat (Resume * Caller);
  nextPromise : nat;
}.

Definition initial : State := {|
  usersCount := 0;
  globalSubscriptions := ∅;
  clientSubscriptions := ∅;
  readyState := ∅;
  nextSocket := 0;
  pending := ∅;
  nextPromise := 0;
|}.

Definition with_usersCount (n : Z) (s : State) : State :=
  {| usersCount := n;
     globalSubscriptions := globalSubscriptions s;
     clientSubscriptions := clientSubscriptions s;
     readyState := readyState s; nextSocket := nextSocket s;
     pending := pending s; nextPromise := nextPromise s |}.

Definition with_global (g : gmap JsVal (list WebSocket)) (s : State) : State :=
  {| usersCount := usersCount s;
     globalSubscriptions := g;
     clientSubscriptions := clientSubscriptions s;
     readyState := readyState s; nextSocket := nextSocket s;
     pending := pending s; nextPromise := nextPromise s |}.

Definition with_client (c : gmap WebSocket (list JsVal)) (s : State) : State :=
  {| usersCount := usersCount s;
     globalSubscriptions := globalSubscriptions s;
     clientSubscriptions := c;
     readyState := readyState s; nextSocket := nextSocket s;
     pending := pending s; nextPromise := nextPromise s |}.

Definition with_readyState (r : gmap WebSocket ReadyState) (s : State) : State :=
  {| usersCount := usersCount s;
     globalSubscriptions := globalSubscriptions s;
     clientSubscriptions := clientSubscriptions s;
     readyState := r; nextSocket := nextSocket s;
     pending := pending s; nextPromise := nextPromise s |}.

Definition with_nextSocket (n : nat) (s : State) : State :=
  {| usersCount := usersCount s;
     globalSubscriptions := globalSubscriptions s;
     clientSubscriptions := clientSubscriptions s;
     readyState := readyState s; nextSocket := n;
     pending := pending s; nextPromise := nextPromise s |}.

Definition with_pending (p : gmap nat (Resume * Caller)) (s : State) : State :=
  {| usersCount := usersCount s;
     globalSubscriptions := globalSubscriptions s;
     clientSubscriptions := clientSubscriptions s;
     readyState := readyState s; nextSocket := nextSocket s;
     pending := p; nextPromise := nextPromise s |}.

Definition with_nextPromise (n : nat) (s : State) : State :=
  {| usersCount := usersCount s;
     globalSubscriptions := globalSubscriptions s;
     clientSubscriptions := clientSubscriptions s;
     readyState := readyState s; nextSocket := nextSocket s;
     pending := pending s; nextPromise := n |}.

(** A method reaches an [await] on a Redis promise: the promise gets the
    next number and the rest of the method is parked under it. *)
Definition suspend (k : Resume) (who : Caller) (s : State) : State :=
  with_nextPromise (S (nextPromise s))
    (with_pending (<[nextPromise s := (k, who)]> (pending s)) s).

(** ** The methods *)

(** [handleSubscription], lines 80-112, up to the [await] of line 94.  The
    listener handed to Redis is the [RedisMessage] event below. *)
Definition handleSubscription (s : State) (ws : WebSocket) (sym : JsVal)
  : State * list Effect * Completion :=
  match clientSubscriptions s !! ws with
  | None => (s, [], Thrown)           (* [clientSubs.has] on [undefined] *)
  | Some clientSubs =>
    if decide (sym ∈ clientSubs) then
      (s, [Log debug "Duplicate subscription attempt"], Returned)
    else
      let s1 := with_client (<[ws := Set_add sym clientSubs]>
                               (clientSubscriptions s)) s in
      match globalSubscriptions s1 !! sym with
      | None =>
        (with_global (<[sym := [ws]]> (globalSubscriptions s1)) s1,
         [RedisSubscribe (channel sym)],
         Awaiting (AfterSubscribe sym))
      | Some subs =>
        (with_global (<[sym := Set_add ws subs]> (globalSubscriptions s1)) s1,
         [Log info "Client added to existing subscription"],
         Returned)
      end
  end.

(** [handleUnsubscription], lines 114-140, up to the [await] of line 130. *)
Definition handleUnsubscription (s : State) (ws : WebSocket) (sym : JsVal)
  : State * list Effect * Completion :=
  match clientSubscriptions s !! ws with
  | None => (s, [], Thrown)           (* [clientSubs.has] on [undefined] *)
  | Some clientSubs =>
    if decide (sym ∈ clientSubs) then
      let s1 := with_client (<[ws := Set_delete sym clientSubs]>
                               (clientSubscriptions s)) s in
      match globalSubscriptions s1 !! sym with
      | None => (s1, [], Thrown)      (* [globalSubs.delete] on [undefined] *)
      | Some globalSubs =>
        let globalSubs' := Set_delete ws globalSubs in
        let s2 := with_global (<[sym := globalSubs']> (globalSubscriptions s1))
                    s1 in
        if decide (Set_size globalSubs' = 0) then
          (s2, [RedisUnsubscribe (channel sym)],
           Awaiting (AfterUnsubscribe sym))
        else
          (s2, [Log info "Client removed from subscription"], Returned)
      end
    else
      (s, [Log debug "Unsubscribe attempt for non-subscribed stock"], Returned)
  end.

(** [handleMessage], lines 65-78. *)
Definition handleMessage (s : State) (ws : WebSocket) (type sym : JsVal)
  : State * list Effect * Completion :=
  if decide (type = VStr "subscribe") then handleSubscription s ws sym
  else if decide (type = VStr "unsubscribe") then handleUnsubscription s ws sym
  else (s, [Log warn "Unknown message type received"], Returned).

(** The [forEach] of lines 152-159 with its two counters. *)
Definition broadcast_each (rs : gmap WebSocket ReadyState) (data : Envelope)
    (acc : list Effect * nat * nat) (client : WebSocket)
  : list Effect * nat * nat :=
  let '(sent, successCount, failCount) := acc in
  if decide (rs !! client = Some OPEN) then
    (sent ++ [Send client data], S successCount, failCount)
  else
    (sent, successCount, S failCount).

(** [broadcastToSubscribers], lines 141-168.  It only reads the state. *)
Definition broadcastToSubscribers (s : State) (sym : JsVal) (msg : string)
  : list Effect :=
  match globalSubscriptions s !! sym with
  | None => []
  | Some subscribers =>
    let data := {| event := "event_orderbook_update";
                   stockSymbol := sym;
                   message := msg |} in
    let '(sent, successCount, failCount) :=
      foldl (broadcast_each (readyState s) data) ([], 0, 0) subscribers in
    sent ++ [LogBroadcast successCount failCount (Set_size subscribers)]
  end.

(** One turn of the [forEach] of lines 178-180: the call is not awaited, so
    the promise of [handleUnsubscription] is dropped.  Each turn deletes the
    topic it visits from the very set that is iterated; a JavaScript
    [forEach] still visits all the others, so the loop runs over the topics
    the set had on entry. *)
Definition disconnect_each (ws : WebSocket) (acc : State * list Effect)
    (sym : JsVal) : State * list Effect :=
  let '(s, effs) := acc in
  let '(s', e, c) := handleUnsubscription s ws sym in
  match c with
  | Returned => (s', effs ++ e)
  | Thrown => (s', effs ++ e ++ [UnhandledRejection])
  | Awaiting k => (suspend k FromDisconnection s', effs ++ e)
  end.

(** [handleClientDisconnection], lines 170-183. *)
Definition handleClientDisconnection (s : State) (ws : WebSocket)
  : State * list Effect :=
  let s1 := with_usersCount (usersCount s - 1) s in
  let '(s2, effs) :=
    match clientSubscriptions s1 !! ws with
    | Some clientSubs =>
      foldl (disconnect_each ws) (s1, [Log info "Client disconnected"])
        clientSubs
    | None => (s1, [Log info "Client disconnected"])
    end in
  (with_client (delete ws (clientSubscriptions s2)) s2, effs).

(** ** Events of the event loop *)

(** What [JSON.parse(message.toString())] and the destructuring of line 69
    make of a frame. *)
Inductive Frame :=
| Malformed                      (* [JSON.parse] throws *)
| JsonNull                       (* the text [null]: destructuring throws *)
| Fields (type sym : JsVal).     (* [data.type], [data.stockSymbol] *)

Inductive Event :=
| Connection                                 (* wss "connection" *)
| Message (ws : WebSocket) (frame : Frame)   (* ws "message" *)
| Closing (ws : WebSocket)                   (* close handshake started *)
| Close (ws : WebSocket)                     (* ws "close" *)
| RedisMessage (sym : JsVal) (msg : string)  (* listener of line 96 *)
| RedisReply (p : nat) (ok : bool).          (* a Redis promise settles *)

(** The handler of [wss.on("connection")], lines 34-43. *)
Definition onConnection (s : State) : State * list Effect :=
  let ws := nextSocket s in
  let s1 := with_nextSocket (S ws)
              (with_readyState (<[ws := OPEN]> (readyState s)) s) in
  let s2 := with_usersCount (usersCount s1 + 1) s1 in
  (with_client (<[ws := []]> (clientSubscriptions s2)) s2,
   [Log info "Client connected"]).

(** The handler of [ws.on("message")], lines 45-59. *)
Definition onMessage (s : State) (ws : WebSocket) (frame : Frame)
  : State * list Effect :=
  match frame with
  | Malformed | JsonNull => (s, [Log error "Error processing message"])
  | Fields type sym =>
    let '(s', e, c) := handleMessage s ws type sym in
    match c with
    | Returned => (s', e ++ [Log debug "Message received"])
    | Thrown => (s', e ++ [Log error "Error processing message"])
    | Awaiting k => (suspend k FromMessage s', e)
    end
  end.

(** The rest of a suspended method, when its promise is fulfilled. *)
Definition resume (s : State) (k : Resume) : State * list Effect :=
  match k with
  | AfterSubscribe sym => (s, [Log info "New stock subscription created"])
  | AfterUnsubscribe sym =>
    (with_global (delete sym (globalSubscriptions s)) s,
     [Log info "Stock subscription removed"])
  end.

(** A Redis promise settles: fulfilled, the parked method runs to its end
    and its caller goes on; rejected, the [await] throws, the method skips
    its remaining statements, and the rejection goes to the caller. *)
Definition onRedisReply (s : State) (p : nat) (ok : bool)
  : State * list Effect :=
  match pending s !! p with
  | None => (s, [])
  | Some (k, who) =>
    let s1 := with_pending (delete p (pending s)) s in
    if ok then
      let '(s2, e) := resume s1 k in
      match who with
      | FromMessage => (s2, e ++ [Log debug "Message received"])
      | FromDisconnection => (s2, e)
      end
    else
      match who with
      | FromMessage => (s1, [Log error "Error processing message"])
      | FromDisconnection => (s1, [UnhandledRejection])
      end
  end.

(** One callback of the event loop. *)
Definition step (s : State) (e : Event) : State * list Effect :=
  match e with
  | Connection => onConnection s
  | Message ws frame => onMessage s ws frame
  | Closing ws =>
    (with_readyState (alter (λ _, CLOSING) ws (readyState s)) s, [])
  | Close ws =>
    handleClientDisconnection
      (with_readyState (alter (λ _, CLOSED) ws (readyState s)) s) ws
  | RedisMessage sym msg => (s, broadcastToSubscribers s sym msg)
  | RedisReply p ok => onRedisReply s p ok
  end.

(** A sequence of callbacks, with everything they did to the outside. *)
Fixpoint run (s : State) (es : list Event) : State * list Effect :=
  match es with
  | [] => (s, [])
  | e :: es' =>
    let '(s1, out1) := step s e in
    let '(s2, out2) := run s1 es' in
    (s2, out1 ++ out2)
  end.

(** ** Reading the indices *)

(** [ws ∈ globalSubscriptions[sym]]; a topic without entry has no member. *)
Definition in_global (s : State) (sym : JsVal) (ws : WebSocket) : Prop :=
  ∃ subs, globalSubscriptions s !! sym = Some subs ∧ ws ∈ subs.

(** [sym ∈ clientSubscriptions[ws]]; a socket without entry has no topic. *)
Definition in_client (s : State) (ws : WebSocket) (sym : JsVal) : Prop :=
  ∃ subs, clientSubscriptions s !! ws = Some subs ∧ sym ∈ subs.

Definition Duality (s : State) : Prop :=
  ∀ ws sym, in_global s sym ws ↔ in_client s ws sym.

(** The subscriber set the listener of [sym] iterates over. *)
Definition subscribers_of (s : State) (sym : JsVal) : list WebSocket :=
  default [] (globalSubscriptions s !! sym).

Definition isOpen (s : State) (ws : WebSocket) : Prop :=
  readyState s !! ws = Some OPEN.

#[global] Instance isOpen_dec (s : State) (ws : WebSocket) :
  Decision (isOpen s ws).
Proof. unfold isOpen. apply _. Defined.

Definition envelope (sym : JsVal) (payload : string) : Envelope :=
  {| event := "event_orderbook_update"; stockSymbol := sym;
     message := payload |}.

Definition is_redis_call (e : Effect) : Prop :=
  match e with
  | RedisSubscribe _ | RedisUnsubscribe _ => True
  | _ => False
  end.

Definition is_send (e : Effect) : Prop :=
  match e with
  | Send _ _ => True
  | _ => False
  end.

#[global] Instance is_redis_call_dec (e : Effect) : Decision (is_redis_call e).
Proof. destruct e; simpl; apply _. Defined.

#[global] Instance is_send_dec (e : Effect) : Decision (is_send e).
Proof. destruct e; simpl; apply _. Defined.

(** ** Vocabulary of the statements *)

(** What holds of the two indices after every event, whatever the order of
    events and of Redis replies: a socket in a topic's subscriber set has
    that topic in its own set, and only sockets that were connected have an
    entry. *)
Definition Inv (s : State) : Prop :=
  (∀ sym ws, in_global s sym ws → in_client s ws sym)
  ∧ (∀ ws, is_Some (clientSubscriptions s !! ws) → ws < nextSocket s).

(** The states the server can be in: those some sequence of events leads to
    from the state the constructor leaves. *)
Definition reachable (s : State) : Prop :=
  ∃ es, (run initial es).1 = s.

(** The other half of the duality needs more than [Inv]: it holds as long as
    no [subscribe] frame for a topic is handled while an [unsubscribe] of
    that topic is waiting for Redis. *)
Definition overtakes (s : State) (e : Event) : Prop :=
  match e with
  | Message _ (Fields type sym) =>
    type = VStr "subscribe"
    ∧ ∃ p who, pending s !! p = Some (AfterUnsubscribe sym, who)
  | _ => False
  end.

(** A run from [s] in which that never happens. *)
Fixpoint calm (s : State) (es : list Event) : Prop :=
  match es with
  | [] => True
  | e :: es' => ¬ overtakes s e ∧ calm (step s e).1 es'
  end.

(** A topic of a socket's own set has the socket among its subscribers, and
    a topic whose [unsubscribe] is waiting for Redis has no subscriber. *)
Definition Settled (s : State) : Prop :=
  (∀ ws sym, in_client s ws sym → in_global s sym ws)
  ∧ (∀ p sym who, pending s !! p = Some (AfterUnsubscribe sym, who) →
       ∀ ws, ¬ in_global s sym ws).

(** The state after the synchronous part of an unsubscription, with the
    method parked when it reached its [await]. *)
Definition unsubscribed (s : State) (ws : WebSocket) (sym : JsVal)
    (who : Caller) : State :=
  let '(s', _, c) := handleUnsubscription s ws sym in
  match c with
  | Awaiting k => suspend k who s'
  | _ => s'
  end.

Definition subscribeTo (sym : JsVal) : Frame := Fields (VStr "subscribe") sym.

Definition unsubscribeFrom (sym : JsVal) : Frame :=
  Fields (VStr "unsubscribe") sym.

(** The outcome the specification asks of a failed subscription. *)
Definition rolled_back (s' : State) (ws : WebSocket) (sym : JsVal) : Prop :=
  ¬ in_client s' ws sym ∧ ¬ in_global s' sym ws.

(** A [subscribe] frame followed by the rejection of the Redis promise it
    created. *)
Definition failed_subscribe (s : State) (ws : WebSocket) (sym : JsVal)
  : State * list Effect :=
  run s [Message ws (subscribeTo sym); RedisReply (nextPromise s) false].

(** An [unsubscribe] frame followed by the rejection of the Redis promise it
    created. *)
Definition failed_unsubscribe (s : State) (ws : WebSocket) (sym : JsVal)
  : State * list Effect :=
  run s [Message ws (unsubscribeFrom sym); RedisReply (nextPromise s) false].

(** Frames the handler drops: text that is not JSON, the JSON text [null],
    and values whose [type] is neither [subscribe] nor [unsubscribe]. *)
Definition not_a_request (frame : Frame) : Prop :=
  match frame with
  | Malformed | JsonNull => True
  | Fields type _ => type ≠ VStr "subscribe" ∧ type ≠ VStr "unsubscribe"
  end.

Definition AAPL : JsVal := VStr "AAPL".

(** One socket, connected. *)
Definition one_connected : State := (run initial [Connection]).1.

(** One socket, subscribed to AAPL, Redis subscription confirmed. *)
Definition one_subscribed : State :=
  (run initial [Connection; Message 0 (subscribeTo AAPL); RedisReply 0 true]).1.

(** Two sockets subscribed to AAPL; the first has started closing and its
    [close] event has not been handled yet. *)
Definition one_closing_one_open : State :=
  (run initial [Connection; Connection;
                Message 0 (subscribeTo AAPL); RedisReply 0 true;
                Message 1 (subscribeTo AAPL); Closing 0]).1.

(** Socket 0 subscribes to AAPL and disconnects; socket 1 connects and
    subscribes to AAPL before Redis has answered the [unsubscribe] that the
    disconnection sent; then the answer arrives. *)
Definition late_reply : list Event :=
  [ Connection; Message 0 (subscribeTo AAPL); RedisReply 0 true;
    Close 0;
    Connection; Message 1 (subscribeTo AAPL);
    RedisReply 1 true ].

(** The same two sockets and requests as [late_reply], but socket 1
    subscribes after Redis has answered. *)
Definition timely_reply : list Event :=
  [ Connection; Message 0 (subscribeTo AAPL); RedisReply 0 true;
    Close 0; RedisReply 1 true;
    Connection; Message 1 (subscribeTo AAPL); RedisReply 2 true ].

(** Subscriber sets hold every socket once. *)
Definition Sets_NoDup (s : State) : Prop :=
  ∀ sym subs, globalSubscriptions s !! sym = Some subs → NoDup subs.

(** Redis [subscribe] calls minus [unsubscribe] calls made on a channel. *)
Definition upstream_balance (chan : string) (out : list Effect) : Z :=
  (Z.of_nat (length (filter (λ e, e = RedisSubscribe chan) out))
   - Z.of_nat (length (filter (λ e, e = RedisUnsubscribe chan) out)))%Z.

(** A socket that was connected and whose entry is gone: its [close]
    handler has run. *)
Definition departed (s : State) (ws : WebSocket) : Prop :=
  clientSubscriptions s !! ws = None ∧ ws < nextSocket s.

(** A run in which [close] is only handled for sockets that have an entry,
    as the [ws] library does: once per socket, after its [connection]. *)
Fixpoint closes_connected (s : State) (es : list Event) : Prop :=
  match es with
  | [] => True
  | e :: es' =>
    match e with
    | Close ws => is_Some (clientSubscriptions s !! ws)
    | _ => True
    end ∧ closes_connected (step s e).1 es'
  end.

(** A first [subscribe], its confirmation, the [unsubscribe] and its
    confirmation, with the numbers the two Redis promises get. *)
Definition subscribe_and_leave (s : State) (ws : WebSocket) (sym : JsVal)
  : list Event :=
  [ Message ws (subscribeTo sym); RedisReply (nextPromise s) true;
    Message ws (unsubscribeFrom sym); RedisReply (S (nextPromise s)) true ].

(** Two sockets on AAPL, both open. *)
Definition two_subscribed : State :=
  (run initial [Connection; Connection;
                Message 0 (subscribeTo AAPL); RedisReply 0 true;
                Message 1 (subscribeTo AAPL)]).1.

(** [usersCount] agrees with the number of sockets that have an entry. *)
Definition Counted (s : State) : Prop :=
  usersCount s = Z.of_nat (size (clientSubscriptions s)).

(** ** Start-up: [start], lines 185-197, and its caller, lines 199-203 *)

Inductive RedisHandle := redisClient | redisPublisher.

Inductive Settlement := Fulfilled | Rejected.

Inductive StartEffect :=
| Connect (c : RedisHandle)
| StartLog (lvl : Level) (msg : string)
| ConsoleError.

(** [start]: the outcome of each [connect] is given by [connects]; the
    second [await] is reached only when the first promise is fulfilled, and
    the [catch] logs and throws again. *)
Definition start (connects : RedisHandle → bool)
  : list StartEffect * Settlement :=
  if connects redisClient then
    if connects redisPublisher then
      ([Connect redisClient; Connect redisPublisher;
        StartLog info "Redis connections established"], Fulfilled)
    else
      ([Connect redisClient; Connect redisPublisher;
        StartLog error "Failed to connect to Redis"], Rejected)
  else
    ([Connect redisClient; StartLog error "Failed to connect to Redis"],
     Rejected).

(** The caller: [new WebSocketRedisServer(...)], whose constructor ends with
    one info line and leaves the router in [initial], then
    [server.start().catch(console.error)]. *)
Definition main (connects : RedisHandle → bool) : list StartEffect :=
  StartLog info "WebSocket server initialized" ::
  match start connects with
  | (out, Fulfilled) => out
  | (out, Rejected) => out ++ [ConsoleError]
  end.

(** ** Configuration: the two files that export [PORT] and
       [REDIS_CREDENTIALS] *)

(** Texts of the environment are sequences of UTF-16 code units.
    [parseInt10] is [parseInt(text, 10)] of ECMAScript: leading white space
    and line terminators are skipped, one sign is read, and the longest run
    of decimal digits that follows is the value; without a digit the result
    is [NaN].  The result is a Number, a double: [Num negative m] is the
    Number whose value is the integer [m] with that sign (minus zero when [m]
    is 0 and the sign is negative), and it is produced only for [m] up to
    2^53, where every integer is a Number of its own.  Above 2^53 the digits
    are rounded to a double; [Large negative] stands for that result, some
    Number of that sign of magnitude 2^53 or more, an infinity included. *)
Inductive JsNumber :=
| NaN
| Num (negative : bool) (magnitude : N)
| Large (negative : bool).

(** 2^53 *)
Definition max_exact : N := 9007199254740992.

Definition toNumber (negative : bool) (m : N) : JsNumber :=
  if (m <=? max_exact)%N then Num negative m else Large negative.

Definition StrWhiteSpaceChar (c : N) : bool :=
  ((c =? 9) || (c =? 10) || (c =? 11) || (c =? 12) || (c =? 13)
   || (c =? 32) || (c =? 160) || (c =? 5760)
   || ((8192 <=? c) && (c <=? 8202))
   || (c =? 8232) || (c =? 8233) || (c =? 8239) || (c =? 8287)
   || (c =? 12288) || (c =? 65279))%N.

Fixpoint trimStart (text : list N) : list N :=
  match text with
  | c :: rest => if StrWhiteSpaceChar c then trimStart rest else text
  | [] => []
  end.

Definition digit (c : N) : option N :=
  if ((48 <=? c) && (c <=? 57))%N then Some (c - 48)%N else None.

Fixpoint digits_value (seen : bool) (acc : N) (text : list N) : option N :=
  match text with
  | c :: rest =>
    match digit c with
    | Some d => digits_value true (10 * acc + d)%N rest
    | None => if seen then Some acc else None
    end
  | [] => if seen then Some acc else None
  end.

(** The sign and the text after it. *)
Definition signed (text : list N) : bool * list N :=
  match text with
  | 45%N :: rest => (true, rest)
  | 43%N :: rest => (false, rest)
  | _ => (false, text)
  end.

Definition parseInt10 (text : list N) : JsNumber :=
  let '(negative, body) := signed (trimStart text) in
  match digits_value false 0 body with
  | Some m => toNumber negative m
  | None => NaN
  end.

(** [process.env.NAME ? parseInt(process.env.NAME, 10) : 5000]: an unset
    variable and the empty text are both falsy. *)
Definition port_from (name : string) (env : gmap string (list N)) : JsNumber :=
  match env !! name with
  | Some (c :: rest) => parseInt10 (c :: rest)
  | _ => Num false 5000
  end.


(** [process.env.NAME || ""] *)
Definition or_empty (v : option (list N)) : list N :=
  match v with
  | Some (c :: rest) => c :: rest
  | _ => []
  end.

Record RedisCredentials := {
  url : list N;
  username : list N;
  password : list N;
}.

Definition REDIS_CREDENTIALS (env : gmap string (list N)) : RedisCredentials :=
  {| url := or_empty (env !! "REDIS_URL");
     username := or_empty (env !! "REDIS_USERNAME");
     password := or_empty (env !! "REDIS_PASSWORD") |}.



(** ** The older class: config.ts, lines 13-165 *)

(** The same class before the logger was introduced: it prints to the
    console, has no counters in the broadcast, no warning for an unknown
    type, does not decrement [usersCount], and its [start] swallows the
    failure.  It is embedded over the same [State] and [Event]. *)
Module Legacy.

Inductive Output :=
| ConsoleLog (text : string)
| ConsoleErr (text : string)
| RedisConnect (c : RedisHandle)
| Call (c : Effect).

Definition handleSubscription (s : State) (ws : WebSocket) (sym : JsVal)
  : State * list Output * Completion :=
  match clientSubscriptions s !! ws with
  | None => (s, [], Thrown)
  | Some clientSubs =>
    if decide (sym ∈ clientSubs) then
      (s, [ConsoleLog ("Client already subscribed to " +:+ channel sym)],
       Returned)
    else
      let s1 := with_client (<[ws := Set_add sym clientSubs]>
                               (clientSubscriptions s)) s in
      match globalSubscriptions s1 !! sym with
      | None =>
        (with_global (<[sym := [ws]]> (globalSubscriptions s1)) s1,
         [Call (RedisSubscribe (channel sym))],
         Awaiting (AfterSubscribe sym))
      | Some subs =>
        (with_global (<[sym := Set_add ws subs]> (globalSubscriptions s1)) s1,
         [ConsoleLog ("Added client to existing subscription for "
                      +:+ channel sym)],
         Returned)
      end
  end.

Definition handleUnsubscription (s : State) (ws : WebSocket) (sym : JsVal)
  : State * list Output * Completion :=
  match clientSubscriptions s !! ws with
  | None => (s, [], Thrown)
  | Some clientSubs =>
    if decide (sym ∈ clientSubs) then
      let s1 := with_client (<[ws := Set_delete sym clientSubs]>
                               (clientSubscriptions s)) s in
      match globalSubscriptions s1 !! sym with
      | None => (s1, [], Thrown)
      | Some globalSubs =>
        let globalSubs' := Set_delete ws globalSubs in
        let s2 := with_global (<[sym := globalSubs']> (globalSubscriptions s1))
                    s1 in
        if decide (Set_size globalSubs' = 0) then
          (s2, [Call (RedisUnsubscribe (channel sym))],
           Awaiting (AfterUnsubscribe sym))
        else
          (s2, [ConsoleLog ("Removed client from subscription for "
                            +:+ channel sym)], Returned)
      end
    else
      (s, [ConsoleLog ("Client not subscribed to " +:+ channel sym)],
       Returned)
  end.

(** No [else]: an unknown type is passed over in silence. *)
Definition handleMessage (s : State) (ws : WebSocket) (type sym : JsVal)
  : State * list Output * Completion :=
  if decide (type = VStr "subscribe") then handleSubscription s ws sym
  else if decide (type = VStr "unsubscribe") then handleUnsubscription s ws sym
  else (s, [], Returned).

Definition broadcast_each (rs : gmap WebSocket ReadyState) (data : Envelope)
    (sent : list Output) (client : WebSocket) : list Output :=
  if decide (rs !! client = Some OPEN) then sent ++ [Call (Send client data)]
  else sent.

Definition broadcastToSubscribers (s : State) (sym : JsVal) (msg : string)
  : list Output :=
  match globalSubscriptions s !! sym with
  | None => []
  | Some subscribers =>
    foldl (broadcast_each (readyState s)
             {| event := "event_orderbook_update";
                stockSymbol := sym;
                message := msg |}) [] subscribers
  end.

Definition disconnect_each (ws : WebSocket) (acc : State * list Output)
    (sym : JsVal) : State * list Output :=
  let '(s, out) := acc in
  let '(s', e, c) := handleUnsubscription s ws sym in
  match c with
  | Returned => (s', out ++ e)
  | Thrown => (s', out ++ e ++ [Call UnhandledRejection])
  | Awaiting k => (suspend k FromDisconnection s', out ++ e)
  end.

(** [usersCount] is left as it is. *)
Definition handleClientDisconnection (s : State) (ws : WebSocket)
  : State * list Output :=
  let '(s2, out) :=
    match clientSubscriptions s !! ws with
    | Some clientSubs =>
      foldl (disconnect_each ws) (s, [ConsoleLog "Client disconnected"])
        clientSubs
    | None => (s, [ConsoleLog "Client disconnected"])
    end in
  (with_client (delete ws (clientSubscriptions s2)) s2, out).

Definition onConnection (s : State) : State * list Output :=
  let ws := nextSocket s in
  let s1 := with_nextSocket (S ws)
              (with_readyState (<[ws := OPEN]> (readyState s)) s) in
  let s2 := with_usersCount (usersCount s1 + 1) s1 in
  (with_client (<[ws := []]> (clientSubscriptions s2)) s2,
   [ConsoleLog ("👥 Client Connected, total users count is "
                +:+ pretty (usersCount s2))]).

Definition onMessage (s : State) (ws : WebSocket) (frame : Frame)
  : State * list Output :=
  match frame with
  | Malformed | JsonNull => (s, [ConsoleErr "Error processing message:"])
  | Fields type sym =>
    let '(s', e, c) := handleMessage s ws type sym in
    match c with
    | Returned => (s', e)
    | Thrown => (s', e ++ [ConsoleErr "Error processing message:"])
    | Awaiting k => (suspend k FromMessage s', e)
    end
  end.

Definition resume (s : State) (k : Resume) : State * list Output :=
  match k with
  | AfterSubscribe sym => (s, [ConsoleLog ("Subscribed to " +:+ channel sym)])
  | AfterUnsubscribe sym =>
    (with_global (delete sym (globalSubscriptions s)) s,
     [ConsoleLog ("Unsubscribed from " +:+ channel sym)])
  end.

Definition onRedisReply (s : State) (p : nat) (ok : bool)
  : State * list Output :=
  match pending s !! p with
  | None => (s, [])
  | Some (k, who) =>
    let s1 := with_pending (delete p (pending s)) s in
    if ok then resume s1 k
    else
      match who with
      | FromMessage => (s1, [ConsoleErr "Error processing message:"])
      | FromDisconnection => (s1, [Call UnhandledRejection])
      end
  end.

Definition step (s : State) (e : Event) : State * list Output :=
  match e with
  | Connection => onConnection s
  | Message ws frame => onMessage s ws frame
  | Closing ws =>
    (with_readyState (alter (λ _, CLOSING) ws (readyState s)) s, [])
  | Close ws =>
    handleClientDisconnection
      (with_readyState (alter (λ _, CLOSED) ws (readyState s)) s) ws
  | RedisMessage sym msg => (s, broadcastToSubscribers s sym msg)
  | RedisReply p ok => onRedisReply s p ok
  end.

Fixpoint run (s : State) (es : list Event) : State * list Output :=
  match es with
  | [] => (s, [])
  | e :: es' =>
    let '(s1, out1) := step s e in
    let '(s2, out2) := run s1 es' in
    (s2, out1 ++ out2)
  end.

(** The [catch] prints and does not throw again. *)
Definition start (connects : RedisHandle → bool)
  : list Output * Settlement :=
  if connects redisClient then
    if connects redisPublisher then
      ([RedisConnect redisClient; RedisConnect redisPublisher;
        ConsoleLog "Connected to Redis"], Fulfilled)
    else
      ([RedisConnect redisClient; RedisConnect redisPublisher;
        ConsoleErr "Failed to connect to Redis"], Fulfilled)
  else
    ([RedisConnect redisClient; ConsoleErr "Failed to connect to Redis"],
     Fulfilled).

(** What the older class does besides printing. *)
Definition calls (out : list Output) : list Effect :=
  omap (λ o, match o with Call c => Some c | _ => None end) out.

Definition connections (out : list Output) : list RedisHandle :=
  omap (λ o, match o with RedisConnect c => Some c | _ => None end) out.

End Legacy.

Definition is_log (e : Effect) : Prop :=
  match e with
  | Log _ _ | LogBroadcast _ _ _ => True
  | _ => False
  end.

#[global] Instance is_log_dec (e : Effect) : Decision (is_log e).
Proof. destruct e; simpl; apply _. Defined.

(** What the class does besides logging. *)
Definition calls (out : list Effect) : list Effect :=
  filter (λ e, ¬ is_log e) out.

Definition connections (out : list StartEffect) : list RedisHandle :=
  omap (λ o, match o with Connect c => Some c | _ => None end) out.

(** Two states that differ at most in [usersCount]. *)
Definition same_router (s1 s2 : State) : Prop :=
  globalSubscriptions s1 = globalSubscriptions s2
  ∧ clientSubscriptions s1 = clientSubscriptions s2
  ∧ readyState s1 = readyState s2
  ∧ nextSocket s1 = nextSocket s2
  ∧ pending s1 = pending s2
  ∧ nextPromise s1 = nextPromise s2.

Definition is_connection (e : Event) : bool :=
  match e with
  | Connection => true
  | _ => false
  end.

(** The number of [connection] events of a run. *)
Definition connections_of (es : list Event) : nat :=
  length (filter (λ e, Is_true (is_connection e)) es).

(** * Fan-out *)

Section Broadcast.
Variable rs : gmap WebSocket ReadyState.
Variable data : Envelope.

Let open (c : WebSocket) : Prop := rs !! c = Some OPEN.

Lemma broadcast_loop (subscribers : list WebSocket) :
  ∀ sent ok ko,
    foldl (broadcast_each rs data) (sent, ok, ko) subscribers
    = (sent ++ ((λ c, Send c data) <$> filter open subscribers),
       ok + length (filter open subscribers),
       ko + length (filter (λ c, ¬ open c) subscribers)).
Proof.
  induction subscribers as [|c l IH]; intros sent ok ko; simpl.
  - by rewrite app_nil_r, !Nat.add_0_r.
  - unfold open in *. rewrite !filter_cons.
    destruct (decide (rs !! c = Some OPEN)) as [Hc|Hc].
    + rewrite decide_False by tauto. rewrite IH. simpl.
      rewrite <- app_assoc. simpl. f_equal. f_equal. lia.
    + rewrite decide_True by done. rewrite IH. simpl.
      f_equal. lia.
Qed.

Lemma filter_split_length (l : list WebSocket) :
  length (filter open l) + length (filter (λ c, ¬ open c) l) = length l.
Proof.
  induction l as [|c l IH]; [done|]. rewrite !filter_cons. unfold open in *.
  destruct (decide (rs !! c = Some OPEN)).
  - rewrite decide_False by tauto. simpl. lia.
  - rewrite decide_True by done. simpl. lia.
Qed.
End Broadcast.

Lemma broadcast_unfold (s : State) (sym : JsVal) (msg : string)
    (subscribers : list WebSocket) :
  globalSubscriptions s !! sym = Some subscribers →
  broadcastToSubscribers s sym msg
  = ((λ c, Send c (envelope sym msg)) <$> filter (isOpen s) subscribers)
    ++ [LogBroadcast (length (filter (isOpen s) subscribers))
          (length (filter (λ c, ¬ isOpen s c) subscribers))
          (length subscribers)].
Proof.
  intros Hg. unfold broadcastToSubscribers. rewrite Hg.
  rewrite broadcast_loop. reflexivity.
Qed.

Lemma open_subscribers_are_sent
    (s : State) (sym : JsVal) (payload : string) :
  (∀ ws env,
     Send ws env ∈ (step s (RedisMessage sym payload)).2
     ↔ in_global s sym ws ∧ isOpen s ws ∧ env = envelope sym payload)
  ∧ filter is_send (step s (RedisMessage sym payload)).2
    = (λ c, Send c (envelope sym payload))
        <$> filter (isOpen s) (subscribers_of s sym).
Proof.
  split.
  - intros ws env. simpl. unfold in_global.
    destruct (globalSubscriptions s !! sym) as [subs|] eqn:Hg.
    + rewrite (broadcast_unfold _ _ _ _ Hg).
      rewrite elem_of_app, list_elem_of_fmap, list_elem_of_singleton.
      split.
      * intros [(c & Hc & Hin)|Hlog]; [|done].
        apply list_elem_of_filter in Hin as [Hopen Hin].
        inversion Hc; subst. eauto.
      * intros ((subs' & Hs & Hin) & Hopen & ->).
        inversion Hs; subst. left. exists ws. split; [done|].
        by apply list_elem_of_filter.
    + unfold broadcastToSubscribers. rewrite Hg. split.
      * by intros ?%elem_of_nil.
      * by intros ((? & ? & _) & _).
  - unfold subscribers_of. simpl.
    destruct (globalSubscriptions s !! sym) as [subs|] eqn:Hg;
      [|by unfold broadcastToSubscribers; rewrite Hg].
    rewrite (broadcast_unfold _ _ _ _ Hg). simpl.
    rewrite filter_app. simpl. rewrite filter_cons, decide_False by tauto.
    simpl. rewrite app_nil_r.
    induction (filter (isOpen s) subs) as [|c l IH]; [done|].
    rewrite fmap_cons, filter_cons, decide_True by done. by rewrite IH.
Qed.

(** C6.  When the listener of a topic runs, a socket is sent a frame if and
    only if it is in the topic's subscriber set and open at that moment; the
    frame is the envelope with event [event_orderbook_update], the topic and
    the payload as received.  The sends are the open subscribers in the
    order of the set, followed by the one debug line. *)
Theorem broadcast_reaches_exactly_open_subscribers
    (s : State) (sym : JsVal) (payload : string) :
  (∀ ws env,
     Send ws env ∈ (step s (RedisMessage sym payload)).2
     ↔ in_global s sym ws ∧ isOpen s ws ∧ env = envelope sym payload)
  ∧ filter is_send (step s (RedisMessage sym payload)).2
    = (λ c, Send c (envelope sym payload))
        <$> filter (isOpen s) (subscribers_of s sym)
  ∧ message (envelope sym payload) = payload
  ∧ stockSymbol (envelope sym payload) = sym
  ∧ event (envelope sym payload) = "event_orderbook_update".
Proof.
  destruct (open_subscribers_are_sent s sym payload)
    as [Hiff Hsends].
  split; [exact Hiff|]. split; [exact Hsends|]. done.
Qed.

(** C7.  With a closed subscriber [c1] and an open subscriber [c2] of the
    topic, the broadcast still sends the envelope to [c2], sends nothing to
    [c1], counts [c1] among the failures ([failCount] is the number of
    subscribers that are not open), ends normally with its debug line, and
    leaves the state alone and Redis untouched. *)
Theorem broadcast_skips_closed_and_continues
    (s : State) (sym : JsVal) (payload : string)
    (subscribers : list WebSocket) (c1 c2 : WebSocket) :
  globalSubscriptions s !! sym = Some subscribers →
  c1 ∈ subscribers → ¬ isOpen s c1 →
  c2 ∈ subscribers → isOpen s c2 →
  let '(s', out) := step s (RedisMessage sym payload) in
  s' = s
  ∧ Send c2 (envelope sym payload) ∈ out
  ∧ (∀ env, Send c1 env ∉ out)
  ∧ (∃ successCount failCount,
       last out = Some (LogBroadcast successCount failCount
                          (length subscribers))
       ∧ failCount = length (filter (λ c, ¬ isOpen s c) subscribers)
       ∧ c1 ∈ filter (λ c, ¬ isOpen s c) subscribers
       ∧ (1 ≤ failCount)%nat ∧ (1 ≤ successCount)%nat
       ∧ successCount + failCount = length subscribers)
  ∧ (∀ e, e ∈ out → ¬ is_redis_call e).
Proof.
  intros Hg H1 Hclosed H2 Hopen. simpl.
  rewrite (broadcast_unfold _ _ _ _ Hg).
  assert (Hin1 : c1 ∈ filter (λ c, ¬ isOpen s c) subscribers)
    by by apply list_elem_of_filter.
  assert (Hin2 : c2 ∈ filter (isOpen s) subscribers)
    by by apply list_elem_of_filter.
  split; [done|]. split; [|split; [|split]].
  - apply elem_of_app. left. apply list_elem_of_fmap. by exists c2.
  - intros env [Hin|Hin%list_elem_of_singleton]%elem_of_app; [|done].
    apply list_elem_of_fmap in Hin as (c & Hc & Hin). inversion Hc; subst.
    by apply list_elem_of_filter in Hin as [? _].
  - eexists _, _. split; [by rewrite last_snoc|].
    split; [done|]. split; [done|].
    split; [|split].
    + destruct (filter (λ c, ¬ isOpen s c) subscribers);
        [by apply elem_of_nil in Hin1 | simpl; lia].
    + destruct (filter (isOpen s) subscribers);
        [by apply elem_of_nil in Hin2 | simpl; lia].
    + apply filter_split_length.
  - intros e [Hin|Hin%list_elem_of_singleton]%elem_of_app;
      [|subst; simpl; tauto].
    apply list_elem_of_fmap in Hin as (c & -> & _). simpl. tauto.
Qed.

(** C10.  For a topic without entry, and for a topic whose entry is the empty
    set, the listener returns normally, sends nothing, calls Redis for
    nothing and leaves the whole state as it was.  Without entry there is no
    output at all; with an empty set the only output is the debug line with
    three zeros. *)
Theorem broadcast_without_subscribers_is_harmless
    (s : State) (sym : JsVal) (payload : string) :
  globalSubscriptions s !! sym = None
  ∨ globalSubscriptions s !! sym = Some [] →
  (step s (RedisMessage sym payload)).1 = s
  ∧ (∀ e, e ∈ (step s (RedisMessage sym payload)).2 →
          ¬ is_send e ∧ ¬ is_redis_call e)
  ∧ (globalSubscriptions s !! sym = None →
     (step s (RedisMessage sym payload)).2 = [])
  ∧ (globalSubscriptions s !! sym = Some [] →
     (step s (RedisMessage sym payload)).2 = [LogBroadcast 0 0 0]).
Proof.
  intros H. simpl. unfold broadcastToSubscribers.
  split; [done|]. destruct H as [-> | ->]; simpl.
  - split; [by intros e ?%elem_of_nil|]. done.
  - split; [|done].
    intros e ->%list_elem_of_singleton. simpl. tauto.
Qed.

(** * The indices under every event *)

Section JsSetFacts.
Context {A : Type} `{EqDecision A}.
Implicit Types (x y : A) (l : list A).

Lemma elem_of_Set_add x y l : y ∈ Set_add x l ↔ y = x ∨ y ∈ l.
Proof.
  unfold Set_add. case_decide.
  - split; [tauto|]. by intros [->|].
  - rewrite elem_of_app, list_elem_of_singleton. tauto.
Qed.

Lemma elem_of_Set_delete x y l : y ∈ Set_delete x l ↔ y ≠ x ∧ y ∈ l.
Proof. unfold Set_delete. by rewrite list_elem_of_filter. Qed.

Lemma Set_add_fresh x l : x ∉ l → Set_add x l = l ++ [x].
Proof. intros. unfold Set_add. by rewrite decide_False. Qed.

Lemma Set_delete_absent x l : x ∉ l → Set_delete x l = l.
Proof.
  unfold Set_delete. induction l as [|a l IH]; [done|].
  intros Hx. apply not_elem_of_cons in Hx as [Hne Hx].
  rewrite filter_cons, decide_True by done. by rewrite IH.
Qed.

Lemma Set_delete_only x l : (∀ y, y ∈ l → y = x) → Set_delete x l = [].
Proof.
  unfold Set_delete. induction l as [|a l IH]; [done|].
  intros Hall. rewrite filter_cons, decide_False.
  - apply IH. intros y Hy. apply Hall. by right.
  - intros Hne. apply Hne, Hall. by left.
Qed.

Lemma NoDup_Set_add x l : NoDup l → NoDup (Set_add x l).
Proof.
  intros Hl. unfold Set_add. case_decide; [done|].
  apply NoDup_app. split; [done|]. split; [|apply NoDup_singleton].
  intros y Hy ->%list_elem_of_singleton. done.
Qed.

Lemma NoDup_Set_delete x l : NoDup l → NoDup (Set_delete x l).
Proof. apply NoDup_filter. Qed.
End JsSetFacts.

Lemma Inv_initial : Inv initial.
Proof.
  split.
  - intros sym ws (subs & Hs & _). simpl in Hs. by rewrite lookup_empty in Hs.
  - intros ws [x Hx]. simpl in Hx. by rewrite lookup_empty in Hx.
Qed.

Lemma Inv_same_indices (s s' : State) :
  globalSubscriptions s' = globalSubscriptions s →
  clientSubscriptions s' = clientSubscriptions s →
  nextSocket s' = nextSocket s →
  Inv s → Inv s'.
Proof.
  intros Hg Hc Hn [H1 H2]. unfold Inv, in_global, in_client.
  rewrite Hg, Hc, Hn. done.
Qed.

Ltac handle_cases :=
  repeat first
    [ progress simplify_eq/=
    | match goal with
      | |- context [match ?x !! ?k with _ => _ end] =>
          let E := fresh "E" in destruct (x !! k) eqn:E
      | |- context [decide ?P] => destruct (decide P)
      end ].

Lemma handleSubscription_Inv (s : State) (ws : WebSocket) (sym : JsVal) :
  Inv s → Inv (handleSubscription s ws sym).1.1.
Proof.
  intros [H1 H2]. unfold handleSubscription. handle_cases; try done.
  - split; simpl.
    + intros sym' w (subs & Hs & Hin). simpl in Hs. unfold in_client; simpl.
      destruct (decide (sym' = sym)) as [->|Hne].
      * rewrite lookup_insert_eq in Hs. simplify_eq.
        apply elem_of_Set_add in Hin as [->|Hin].
        -- rewrite lookup_insert_eq. eexists; split; [done|].
           apply elem_of_Set_add; by left.
        -- destruct (H1 sym w) as (cs & Hcs & Hsym); [by eexists|].
           destruct (decide (w = ws)) as [->|Hw].
           ++ rewrite lookup_insert_eq. eexists; split; [done|].
              apply elem_of_Set_add; by left.
           ++ rewrite lookup_insert_ne by done. by eexists.
      * rewrite lookup_insert_ne in Hs by done.
        destruct (H1 sym' w) as (cs & Hcs & Hsym); [by eexists|].
        destruct (decide (w = ws)) as [->|Hw].
        -- rewrite lookup_insert_eq. simplify_eq. eexists; split; [done|].
           apply elem_of_Set_add; by right.
        -- rewrite lookup_insert_ne by done. by eexists.
    + intros w [x Hx]. apply H2.
      destruct (decide (w = ws)) as [->|Hw]; [by eexists|].
      rewrite lookup_insert_ne in Hx by done. by eexists.
  - split; simpl.
    + intros sym' w (subs & Hs & Hin). simpl in Hs. unfold in_client; simpl.
      destruct (decide (sym' = sym)) as [->|Hne].
      * rewrite lookup_insert_eq in Hs. simplify_eq.
        apply list_elem_of_singleton in Hin as ->.
        rewrite lookup_insert_eq. eexists; split; [done|].
        apply elem_of_Set_add; by left.
      * rewrite lookup_insert_ne in Hs by done.
        destruct (H1 sym' w) as (cs & Hcs & Hsym); [by eexists|].
        destruct (decide (w = ws)) as [->|Hw].
        -- rewrite lookup_insert_eq. simplify_eq. eexists; split; [done|].
           apply elem_of_Set_add; by right.
        -- rewrite lookup_insert_ne by done. by eexists.
    + intros w [x Hx]. apply H2.
      destruct (decide (w = ws)) as [->|Hw]; [by eexists|].
      rewrite lookup_insert_ne in Hx by done. by eexists.
Qed.

Lemma handleUnsubscription_Inv (s : State) (ws : WebSocket) (sym : JsVal) :
  Inv s → Inv (handleUnsubscription s ws sym).1.1.
Proof.
  intros [H1 H2]. unfold handleUnsubscription.
  destruct (clientSubscriptions s !! ws) as [cur|] eqn:Hcur; [|done].
  destruct (decide (sym ∈ cur)) as [Hin|Hout]; [|done].
  assert (Hkeys : ∀ w, is_Some (<[ws := Set_delete sym cur]>
                     (clientSubscriptions s) !! w) → w < nextSocket s).
  { intros w [x Hx]. apply H2.
    destruct (decide (w = ws)) as [->|Hw]; [by eexists|].
    rewrite lookup_insert_ne in Hx by done. by eexists. }
  assert (Hkeep : ∀ sym' w, sym' ≠ sym → in_client s w sym' →
            ∃ subs, <[ws := Set_delete sym cur]> (clientSubscriptions s) !! w
                    = Some subs ∧ sym' ∈ subs).
  { intros sym' w Hne (cs & Hcs & Hsym).
    destruct (decide (w = ws)) as [->|Hw].
    - rewrite lookup_insert_eq. simplify_eq. eexists; split; [done|].
      by apply elem_of_Set_delete.
    - rewrite lookup_insert_ne by done. by eexists. }
  simpl. destruct (globalSubscriptions s !! sym) as [g|] eqn:Hg.
  - assert (Inv (with_global (<[sym := Set_delete ws g]> (globalSubscriptions s))
              (with_client (<[ws := Set_delete sym cur]>
                              (clientSubscriptions s)) s))) as HI.
    { split; simpl; [|done].
      intros sym' w (subs & Hs & Hw). simpl in Hs. unfold in_client; simpl.
      destruct (decide (sym' = sym)) as [->|Hne].
      - rewrite lookup_insert_eq in Hs. simplify_eq.
        apply elem_of_Set_delete in Hw as [Hw Hwg].
        destruct (H1 sym w) as (cs & Hcs & Hsym); [by eexists|].
        rewrite lookup_insert_ne by done. by eexists.
      - rewrite lookup_insert_ne in Hs by done.
        apply Hkeep; [done|]. apply H1. by eexists. }
    by destruct (decide (Set_size (Set_delete ws g) = 0)).
  - split; simpl; [|done].
    intros sym' w (subs & Hs & Hw). simpl in Hs. unfold in_client; simpl.
    apply Hkeep; [congruence|]. apply H1. by eexists.
Qed.

(** ** What one unsubscription does to the indices *)

Lemma handleUnsubscription_client (s : State) (ws : WebSocket) (sym : JsVal)
    (cur : list JsVal) :
  clientSubscriptions s !! ws = Some cur →
  clientSubscriptions (handleUnsubscription s ws sym).1.1
  = <[ws := Set_delete sym cur]> (clientSubscriptions s).
Proof.
  intros Hcur. unfold handleUnsubscription. rewrite Hcur.
  destruct (decide (sym ∈ cur)) as [Hin|Hout]; simpl.
  - destruct (globalSubscriptions s !! sym); [|done].
    by destruct (decide _).
  - rewrite Set_delete_absent by done. by rewrite insert_id.
Qed.

Lemma handleUnsubscription_client_None (s : State) (ws : WebSocket)
    (sym : JsVal) :
  clientSubscriptions s !! ws = None →
  handleUnsubscription s ws sym = (s, [], Thrown).
Proof. intros Hcur. unfold handleUnsubscription. by rewrite Hcur. Qed.

Lemma handleUnsubscription_global_ne (s : State) (ws : WebSocket)
    (sym sym' : JsVal) :
  sym' ≠ sym →
  globalSubscriptions (handleUnsubscription s ws sym).1.1 !! sym'
  = globalSubscriptions s !! sym'.
Proof.
  intros Hne. unfold handleUnsubscription.
  destruct (clientSubscriptions s !! ws); [|done].
  destruct (decide _); [|done]. simpl.
  destruct (globalSubscriptions s !! sym); [|done].
  destruct (decide _); simpl; by rewrite lookup_insert_ne.
Qed.

Lemma handleUnsubscription_nextSocket (s : State) (ws : WebSocket)
    (sym : JsVal) :
  nextSocket (handleUnsubscription s ws sym).1.1 = nextSocket s.
Proof.
  unfold handleUnsubscription.
  destruct (clientSubscriptions s !! ws); [|done].
  destruct (decide _); [|done]. simpl.
  destruct (globalSubscriptions s !! sym); [|done].
  by destruct (decide _).
Qed.

(** The last subscriber leaves: the Redis call is made before the method
    suspends, and the entry stays behind, empty, until the reply. *)
Lemma handleUnsubscription_last (s : State) (ws : WebSocket) (sym : JsVal)
    (cur : list JsVal) (g : list WebSocket) :
  clientSubscriptions s !! ws = Some cur → sym ∈ cur →
  globalSubscriptions s !! sym = Some g → (∀ x, x ∈ g → x = ws) →
  handleUnsubscription s ws sym
  = (with_global (<[sym := []]> (globalSubscriptions s))
       (with_client (<[ws := Set_delete sym cur]> (clientSubscriptions s)) s),
     [RedisUnsubscribe (channel sym)],
     Awaiting (AfterUnsubscribe sym)).
Proof.
  intros Hcur Hin Hg Hall. unfold handleUnsubscription.
  rewrite Hcur, decide_True by done. simpl. rewrite Hg.
  rewrite (Set_delete_only ws g Hall). by rewrite decide_True.
Qed.

Lemma handleUnsubscription_keeps_empty (s : State) (ws : WebSocket)
    (sym sym' : JsVal) :
  globalSubscriptions s !! sym' = Some [] →
  globalSubscriptions (handleUnsubscription s ws sym).1.1 !! sym' = Some [].
Proof.
  intros He. destruct (decide (sym' = sym)) as [->|Hne];
    [|by rewrite handleUnsubscription_global_ne].
  unfold handleUnsubscription.
  destruct (clientSubscriptions s !! ws); [|done].
  destruct (decide _); [|done]. simpl. rewrite He. simpl.
  by rewrite lookup_insert_eq.
Qed.


(** ** The loop of [handleClientDisconnection] *)

Section Disconnection.
Variable ws : WebSocket.

Lemma disconnect_each_state (s : State) (e : list Effect) (sym : JsVal) :
  let s' := (disconnect_each ws (s, e) sym).1 in
  globalSubscriptions s'
  = globalSubscriptions (handleUnsubscription s ws sym).1.1
  ∧ clientSubscriptions s'
    = clientSubscriptions (handleUnsubscription s ws sym).1.1
  ∧ nextSocket s' = nextSocket s.
Proof.
  simpl. pose proof (handleUnsubscription_nextSocket s ws sym) as Hn.
  destruct (handleUnsubscription s ws sym) as [[s' e'] c].
  by destruct c.
Qed.

Lemma disconnect_each_output (s : State) (e : list Effect) (sym : JsVal) :
  ∃ e', (disconnect_each ws (s, e) sym).2 = e ++ e'
        ∧ (handleUnsubscription s ws sym).1.2 `prefix_of` e'.
Proof.
  simpl. destruct (handleUnsubscription s ws sym) as [[s' e'] c]; simpl.
  destruct c; simpl; eauto using prefix_app_r.
Qed.

Lemma disconnect_each_Inv (s : State) (e : list Effect) (sym : JsVal) :
  Inv s → Inv (disconnect_each ws (s, e) sym).1.
Proof.
  intros HI. destruct (disconnect_each_state s e sym) as (Hg & Hc & Hn).
  pose proof (handleUnsubscription_Inv s ws sym HI) as HI'.
  eapply Inv_same_indices; [exact Hg|exact Hc| |exact HI'].
  by rewrite Hn, handleUnsubscription_nextSocket.
Qed.

Lemma disconnect_loop_Inv (l : list JsVal) :
  ∀ acc, Inv acc.1 → Inv (foldl (disconnect_each ws) acc l).1.
Proof.
  induction l as [|a l IH]; intros [s e] HI; [done|].
  simpl. apply IH. by apply disconnect_each_Inv.
Qed.

(** Every topic of the list is gone from the socket's own set. *)
Lemma disconnect_loop_client (l : list JsVal) :
  ∀ acc cur,
    clientSubscriptions acc.1 !! ws = Some cur →
    ∃ cur', clientSubscriptions (foldl (disconnect_each ws) acc l).1 !! ws
            = Some cur'
            ∧ ∀ sym, sym ∈ cur' → sym ∈ cur ∧ sym ∉ l.
Proof.
  induction l as [|a l IH]; intros [s e] cur Hcur.
  - exists cur. split; [done|]. intros sym Hsym. split; [done|].
    apply not_elem_of_nil.
  - cbn [foldl].
    destruct (disconnect_each_state s e a) as (_ & Hc & _).
    destruct (IH (disconnect_each ws (s, e) a) (Set_delete a cur))
      as (cur' & Hcur' & Hsub).
    { rewrite Hc, (handleUnsubscription_client _ _ _ _ Hcur).
      apply lookup_insert_eq. }
    exists cur'. split; [done|]. intros sym Hsym.
    destruct (Hsub sym Hsym) as [[Hne Hin]%elem_of_Set_delete Hl].
    split; [done|]. by apply not_elem_of_cons.
Qed.

Lemma disconnect_loop_output (l : list JsVal) :
  ∀ acc, acc.2 `prefix_of` (foldl (disconnect_each ws) acc l).2.
Proof.
  induction l as [|a l IH]; intros [s e]; [done|].
  cbn [foldl]. etrans; [|apply IH].
  destruct (disconnect_each_output s e a) as (e' & -> & _).
  by apply prefix_app_r.
Qed.

Lemma disconnect_loop_keeps_empty (l : list JsVal) (sym : JsVal) :
  ∀ acc,
    globalSubscriptions acc.1 !! sym = Some [] →
    globalSubscriptions (foldl (disconnect_each ws) acc l).1 !! sym
    = Some [].
Proof.
  induction l as [|a l IH]; intros [s e] He; [done|].
  cbn [foldl]. apply IH.
  destruct (disconnect_each_state s e a) as (-> & _ & _).
  by apply handleUnsubscription_keeps_empty.
Qed.

(** A topic of the list whose only subscriber is the socket: the loop
    calls Redis [unsubscribe] for its channel and empties its set. *)
Lemma disconnect_loop_releases (l : list JsVal) (sym : JsVal)
    (g : list WebSocket) :
  ∀ acc cur,
    clientSubscriptions acc.1 !! ws = Some cur → sym ∈ cur → sym ∈ l →
    globalSubscriptions acc.1 !! sym = Some g → (∀ x, x ∈ g → x = ws) →
    RedisUnsubscribe (channel sym) ∈ (foldl (disconnect_each ws) acc l).2
    ∧ globalSubscriptions (foldl (disconnect_each ws) acc l).1 !! sym
      = Some [].
Proof.
  induction l as [|a l IH]; intros [s e] cur Hcur Hin Hl Hg Hall;
    [by apply elem_of_nil in Hl|].
  cbn [foldl]. simpl in Hcur, Hg.
  destruct (disconnect_each_state s e a) as (Hg' & Hc' & _).
  destruct (decide (a = sym)) as [->|Hne].
  - pose proof (handleUnsubscription_last s ws sym cur g Hcur Hin Hg Hall)
      as Hlast.
    split.
    + eapply elem_of_prefix; [|apply disconnect_loop_output].
      simpl. rewrite Hlast. simpl.
      apply elem_of_app. right. by left.
    + apply disconnect_loop_keeps_empty. rewrite Hg', Hlast. simpl.
      apply lookup_insert_eq.
  - apply (IH _ (Set_delete a cur)).
    + rewrite Hc', (handleUnsubscription_client _ _ _ _ Hcur).
      apply lookup_insert_eq.
    + by apply elem_of_Set_delete.
    + apply elem_of_cons in Hl as [->|Hl]; [done|done].
    + rewrite Hg'. by rewrite handleUnsubscription_global_ne.
    + done.
Qed.



End Disconnection.

Lemma handleClientDisconnection_spec (s : State) (ws : WebSocket) :
  Inv s →
  Inv (handleClientDisconnection s ws).1
  ∧ (∀ sym, ¬ in_global (handleClientDisconnection s ws).1 sym ws)
  ∧ clientSubscriptions (handleClientDisconnection s ws).1 !! ws = None
  ∧ (∀ sym g,
       globalSubscriptions s !! sym = Some g → g ≠ [] →
       (∀ x, x ∈ g → x = ws) →
       RedisUnsubscribe (channel sym) ∈ (handleClientDisconnection s ws).2
       ∧ globalSubscriptions (handleClientDisconnection s ws).1 !! sym
         = Some []).
Proof.
  intros HI. unfold handleClientDisconnection.
  set (s1 := with_usersCount (usersCount s - 1) s).
  assert (HI1 : Inv s1) by by eapply Inv_same_indices; [| | |exact HI].
  set (e1 := [Log info "Client disconnected"]).
  set (r := match clientSubscriptions s1 !! ws with
            | Some clientSubs => foldl (disconnect_each ws) (s1, e1) clientSubs
            | None => (s1, e1)
            end).
  assert (HI2 : Inv r.1).
  { subst r. destruct (clientSubscriptions s1 !! ws); [|done].
    by apply disconnect_loop_Inv. }
  assert (Hgone : ∀ sym, ¬ in_client r.1 ws sym).
  { intros sym (cs & Hcs & Hsym). subst r.
    destruct (clientSubscriptions s1 !! ws) as [cur|] eqn:Hcur;
      [|cbn [fst] in Hcs; congruence].
    destruct (disconnect_loop_client ws cur (s1, e1) cur Hcur)
      as (cur' & Hcur' & Hsub).
    rewrite Hcur' in Hcs. simplify_eq.
    by destruct (Hsub sym Hsym). }
  destruct r as [s2 effs] eqn:Hr. simpl in HI2, Hgone. simpl.
  destruct HI2 as [H1 H2].
  split; [|split; [|split]].
  - split; simpl.
    + intros sym w Hgw. destruct (H1 sym w Hgw) as (cs & Hcs & Hsym).
      exists cs. split; [|done]. simpl.
      rewrite lookup_delete_ne; [done|].
      intros ->. apply (Hgone sym). by exists cs.
    + intros w [x Hx]. apply H2.
      destruct (decide (w = ws)) as [->|Hne];
        [by rewrite lookup_delete_eq in Hx|].
      rewrite lookup_delete_ne in Hx by done. by eexists.
  - intros sym Hg. apply (Hgone sym), H1, Hg.
  - apply lookup_delete_eq.
  - intros sym g Hg Hne Hall.
    assert (Hws : ws ∈ g).
    { destruct g as [|x g]; [done|]. rewrite <- (Hall x); by left. }
    destruct HI1 as [HI1 _].
    destruct (HI1 sym ws) as (cur & Hcur & Hsym); [by exists g|].
    subst r. rewrite Hcur in Hr.
    destruct (disconnect_loop_releases ws cur sym g (s1, e1) cur)
      as [Hout Hempty]; try done.
    by rewrite Hr in Hout, Hempty.
Qed.



Lemma step_Inv (s : State) (e : Event) : Inv s → Inv (step s e).1.
Proof.
  intros HI. destruct e as [|ws frame|ws|ws|sym msg|p ok]; simpl.
  - destruct HI as [H1 H2]. split; simpl.
    + intros sym w Hgw. destruct (H1 sym w Hgw) as (cs & Hcs & Hsym).
      exists cs. split; [|done]. simpl.
      rewrite lookup_insert_ne; [done|].
      intros <-. assert (nextSocket s < nextSocket s); [|lia].
      apply H2. by eexists.
    + intros w [x Hx].
      destruct (decide (w = nextSocket s)) as [->|Hne]; [lia|].
      rewrite lookup_insert_ne in Hx by done.
      assert (w < nextSocket s); [|lia]. apply H2. by eexists.
  - unfold onMessage. destruct frame as [| |type sym]; [done|done|].
    assert (HI' : Inv (handleMessage s ws type sym).1.1).
    { unfold handleMessage. repeat case_decide;
        auto using handleSubscription_Inv, handleUnsubscription_Inv. }
    destruct (handleMessage s ws type sym) as [[s' e'] c].
    by destruct c.
  - by eapply Inv_same_indices; [| | |exact HI].
  - apply handleClientDisconnection_spec.
    by eapply Inv_same_indices; [| | |exact HI].
  - done.
  - unfold onRedisReply. destruct (pending s !! p) as [[k who]|]; [|done].
    assert (HI1 : Inv (with_pending (delete p (pending s)) s))
      by by eapply Inv_same_indices; [| | |exact HI].
    destruct ok; [|by destruct who].
    assert (HI2 : Inv (resume (with_pending (delete p (pending s)) s) k).1).
    { destruct k as [sym|sym]; [done|]. simpl.
      destruct HI as [H1 H2]. split; simpl; [|done].
      intros sym' w (subs & Hs & Hw). simpl in Hs.
      apply lookup_delete_Some in Hs as [Hne Hs].
      destruct (H1 sym' w) as (cs & Hcs & Hsym); [by exists subs|].
      by exists cs. }
    destruct (resume _ k) as [s2 e2]. by destruct who.
Qed.

Lemma run_Inv (es : list Event) : ∀ s, Inv s → Inv (run s es).1.
Proof.
  induction es as [|e es IH]; intros s HI; [done|].
  simpl. pose proof (step_Inv s e HI) as HI1.
  destruct (step s e) as [s1 out1]. specialize (IH s1 HI1).
  by destruct (run s1 es) as [s2 out2].
Qed.

Lemma reachable_Inv (s : State) : reachable s → Inv s.
Proof. intros [es <-]. apply run_Inv, Inv_initial. Qed.

(** ** Runs in which no subscription overtakes an unsubscription *)

Lemma elem_of_pending_suspend (s : State) (k k' : Resume) (who who' : Caller)
    (p : nat) :
  pending (suspend k who s) !! p = Some (k', who') →
  (k' = k ∧ who' = who) ∨ pending s !! p = Some (k', who').
Proof.
  simpl. destruct (decide (p = nextPromise s)) as [->|Hne].
  - rewrite lookup_insert_eq. intros [= <- <-]. by left.
  - rewrite lookup_insert_ne by done. by right.
Qed.

Lemma unsubscribed_Settled (s : State) (ws : WebSocket) (sym : JsVal)
    (who : Caller) :
  Settled s → Settled (unsubscribed s ws sym who).
Proof.
  intros [HQ HP]. unfold unsubscribed, handleUnsubscription.
  destruct (clientSubscriptions s !! ws) as [cur|] eqn:Hcur; [|done].
  destruct (decide (sym ∈ cur)) as [Hin|Hout]; [|done]. simpl.
  assert (Hshrink : ∀ w t,
            (∃ subs, <[ws := Set_delete sym cur]> (clientSubscriptions s) !! w
                     = Some subs ∧ t ∈ subs) →
            in_client s w t ∧ ¬ (w = ws ∧ t = sym)).
  { intros w t (subs & Hs & Ht).
    destruct (decide (w = ws)) as [->|Hw].
    - rewrite lookup_insert_eq in Hs. simplify_eq.
      apply elem_of_Set_delete in Ht as [Hne Ht].
      split; [by exists cur|]. by intros [_ ?].
    - rewrite lookup_insert_ne in Hs by done.
      split; [by exists subs|]. by intros [? _]. }
  destruct (globalSubscriptions s !! sym) as [g|] eqn:Hg.
  - assert (Hglobal : ∀ t w,
              (∃ subs, <[sym := Set_delete ws g]> (globalSubscriptions s) !! t
                       = Some subs ∧ w ∈ subs)
              ↔ in_global s t w ∧ ¬ (w = ws ∧ t = sym)).
    { intros t w. unfold in_global.
      destruct (decide (t = sym)) as [->|Ht].
      - rewrite lookup_insert_eq, Hg. split.
        + intros (subs & [= <-] & [Hne Hw]%elem_of_Set_delete).
          split; [by exists g|]. by intros [? _].
        + intros [(subs & [= <-] & Hw) Hne]. eexists. split; [done|].
          apply elem_of_Set_delete. split; [|done]. intros ->. by apply Hne.
      - rewrite lookup_insert_ne by done. split.
        + intros H. split; [done|]. by intros [_ ?].
        + by intros [H _]. }
    assert (HQ' : ∀ w t,
              (∃ subs, <[ws := Set_delete sym cur]> (clientSubscriptions s)
                         !! w = Some subs ∧ t ∈ subs) →
              ∃ subs, <[sym := Set_delete ws g]> (globalSubscriptions s) !! t
                      = Some subs ∧ w ∈ subs).
    { intros w t [Hc Hne]%Hshrink. apply Hglobal. split; [by apply HQ|done]. }
    assert (HP' : ∀ p t who', pending s !! p = Some (AfterUnsubscribe t, who') →
              ∀ w, ¬ ∃ subs,
                <[sym := Set_delete ws g]> (globalSubscriptions s) !! t
                = Some subs ∧ w ∈ subs).
    { intros p t who' Hp w [Hgw _]%Hglobal. by apply (HP p t who' Hp w). }
    destruct (decide (Set_size (Set_delete ws g) = 0)) as [Hz|Hnz].
    + split; [exact HQ'|].
      intros p t who' [[[= ->] _]|Hp]%elem_of_pending_suspend w.
      * intros (subs & Hs & Hw). simpl in Hs.
        rewrite lookup_insert_eq in Hs. simplify_eq.
        apply nil_length_inv in Hz. rewrite Hz in Hw.
        by apply elem_of_nil in Hw.
      * by apply (HP' p t who' Hp w).
    + split; [exact HQ'|exact HP'].
  - split.
    + intros w t [Hc _]%Hshrink. by apply HQ.
    + exact HP.
Qed.

Lemma disconnect_each_unsubscribed (ws : WebSocket) (s : State)
    (e : list Effect) (sym : JsVal) :
  (disconnect_each ws (s, e) sym).1 = unsubscribed s ws sym FromDisconnection.
Proof.
  unfold disconnect_each, unsubscribed.
  destruct (handleUnsubscription s ws sym) as [[s' e'] c]. by destruct c.
Qed.

Lemma disconnect_loop_Settled (ws : WebSocket) (l : list JsVal) :
  ∀ acc, Settled acc.1 → Settled (foldl (disconnect_each ws) acc l).1.
Proof.
  induction l as [|a l IH]; intros [s e] HS; [done|].
  cbn [foldl]. apply IH. rewrite disconnect_each_unsubscribed.
  by apply unsubscribed_Settled.
Qed.

Lemma handleSubscription_Settled (s : State) (ws : WebSocket) (sym : JsVal) :
  Settled s →
  ¬ (∃ p who, pending s !! p = Some (AfterUnsubscribe sym, who)) →
  Settled (match (handleSubscription s ws sym).2 with
           | Awaiting k => suspend k FromMessage (handleSubscription s ws sym).1.1
           | _ => (handleSubscription s ws sym).1.1
           end).
Proof.
  intros [HQ HP] Hfree. unfold handleSubscription.
  destruct (clientSubscriptions s !! ws) as [cur|] eqn:Hcur; [|done].
  destruct (decide (sym ∈ cur)) as [Hin|Hout]; [done|]. simpl.
  assert (Hgrow : ∀ w t,
            (∃ subs, <[ws := Set_add sym cur]> (clientSubscriptions s) !! w
                     = Some subs ∧ t ∈ subs) →
            in_client s w t ∨ (w = ws ∧ t = sym)).
  { intros w t (subs & Hs & Ht).
    destruct (decide (w = ws)) as [->|Hw].
    - rewrite lookup_insert_eq in Hs. simplify_eq.
      apply elem_of_Set_add in Ht as [->|Ht]; [by right|].
      left. by exists cur.
    - rewrite lookup_insert_ne in Hs by done. left. by exists subs. }
  assert (Hother : ∀ p t who, pending s !! p = Some (AfterUnsubscribe t, who) →
            t ≠ sym).
  { intros p t who Hp ->. apply Hfree. eauto. }
  destruct (globalSubscriptions s !! sym) as [g|] eqn:Hg; simpl.
  - split; simpl.
    + intros w t [Hc|[-> ->]]%Hgrow; unfold in_global; simpl.
      * destruct (HQ w t Hc) as (subs & Hs & Hw).
        destruct (decide (t = sym)) as [->|Ht].
        -- rewrite lookup_insert_eq. eexists. split; [done|].
           apply elem_of_Set_add. right. congruence.
        -- rewrite lookup_insert_ne by done. by exists subs.
      * rewrite lookup_insert_eq. eexists. split; [done|].
        apply elem_of_Set_add. by left.
    + intros p t who Hp w (subs & Hs & Hw). simpl in Hs.
      rewrite lookup_insert_ne in Hs by (symmetry; by eapply Hother).
      apply (HP p t who Hp w). by exists subs.
  - split; simpl.
    + intros w t [Hc|[-> ->]]%Hgrow; unfold in_global; simpl.
      * destruct (HQ w t Hc) as (subs & Hs & Hw).
        destruct (decide (t = sym)) as [->|Ht]; [congruence|].
        rewrite lookup_insert_ne by done. by exists subs.
      * rewrite lookup_insert_eq. eexists. split; [done|]. by left.
    + intros p t who Hp w (subs & Hs & Hw). simpl in Hs, Hp.
      destruct (decide (p = nextPromise s)) as [->|Hne].
      * rewrite lookup_insert_eq in Hp. congruence.
      * rewrite lookup_insert_ne in Hp by done.
        rewrite lookup_insert_ne in Hs by (symmetry; by eapply Hother).
        apply (HP p t who Hp w). by exists subs.
Qed.

Lemma step_Settled (s : State) (e : Event) :
  Settled s → ¬ overtakes s e → Settled (step s e).1.
Proof.
  intros HS Hcalm. destruct e as [|ws frame|ws|ws|sym msg|p ok]; simpl.
  - destruct HS as [HQ HP]. split; [|exact HP].
    intros w t (subs & Hs & Ht). simpl in Hs.
    destruct (decide (w = nextSocket s)) as [->|Hne].
    + rewrite lookup_insert_eq in Hs. simplify_eq. by apply elem_of_nil in Ht.
    + rewrite lookup_insert_ne in Hs by done. apply HQ. by exists subs.
  - unfold onMessage. destruct frame as [| |type sym]; [done|done|].
    unfold handleMessage.
    destruct (decide (type = VStr "subscribe")) as [->|Hsub].
    + assert (Hfree : ¬ ∃ p who,
                pending s !! p = Some (AfterUnsubscribe sym, who)).
      { intros Hp. apply Hcalm. simpl. by split. }
      pose proof (handleSubscription_Settled s ws sym HS Hfree) as H.
      destruct (handleSubscription s ws sym) as [[s' e'] c]. by destruct c.
    + destruct (decide (type = VStr "unsubscribe")) as [->|Hunsub]; [|done].
      pose proof (unsubscribed_Settled s ws sym FromMessage HS) as H.
      unfold unsubscribed in H.
      destruct (handleUnsubscription s ws sym) as [[s' e'] c]. by destruct c.
  - done.
  - unfold handleClientDisconnection.
    set (s1 := with_usersCount _ _).
    assert (HS1 : Settled s1) by done.
    set (e1 := [Log info "Client disconnected"]).
    assert (HS2 : Settled
              (match clientSubscriptions s1 !! ws with
               | Some clientSubs =>
                   foldl (disconnect_each ws) (s1, e1) clientSubs
               | None => (s1, e1)
               end).1).
    { destruct (clientSubscriptions s1 !! ws); [|done].
      by apply disconnect_loop_Settled. }
    destruct (match clientSubscriptions s1 !! ws with
              | Some _ => _ | None => _ end) as [s2 effs].
    destruct HS2 as [HQ HP]. split; [|exact HP].
    intros w t (subs & Hs & Ht). simpl in Hs.
    apply lookup_delete_Some in Hs as [_ Hs]. apply HQ. by exists subs.
  - done.
  - unfold onRedisReply.
    destruct (pending s !! p) as [[k who]|] eqn:Hp; [|done].
    destruct HS as [HQ HP].
    assert (HS1 : Settled (with_pending (delete p (pending s)) s)).
    { split; [exact HQ|]. intros q t who' Hq. simpl in Hq.
      apply lookup_delete_Some in Hq as [_ Hq]. by apply (HP q t who'). }
    destruct ok; [|by destruct who].
    assert (HS2 : Settled (resume (with_pending (delete p (pending s)) s) k).1).
    { destruct k as [sym|sym]; [done|]. simpl. split; simpl.
      - intros w t Hc. destruct (HQ w t Hc) as (subs & Hs & Hw).
        exists subs. split; [|done]. simpl.
        rewrite lookup_delete_ne; [done|].
        intros <-. apply (HP p sym who Hp w). by exists subs.
      - intros q t who' Hq w (subs & Hs & Hw). simpl in Hq, Hs.
        apply lookup_delete_Some in Hq as [_ Hq].
        apply lookup_delete_Some in Hs as [_ Hs].
        apply (HP q t who' Hq w). by exists subs. }
    destruct (resume _ k) as [s2 e2]. by destruct who.
Qed.

Lemma Settled_initial : Settled initial.
Proof.
  split.
  - intros ws sym (subs & Hs & _). simpl in Hs. by rewrite lookup_empty in Hs.
  - intros p sym who Hp. simpl in Hp. by rewrite lookup_empty in Hp.
Qed.

(** On a calm run the two indices agree after every event, whatever Redis
    answers and however late. *)
Lemma calm_run_Duality (es : list Event) :
  ∀ s, Inv s → Settled s → calm s es → Duality (run s es).1.
Proof.
  induction es as [|e es IH]; intros s HI HS Hcalm.
  - intros ws sym. split; [apply HI|apply HS].
  - destruct Hcalm as [Hnow Hnext]. cbn [run].
    pose proof (step_Inv s e HI) as HI1.
    pose proof (step_Settled s e HS Hnow) as HS1.
    specialize (IH (step s e).1 HI1 HS1 Hnext).
    destruct (step s e) as [s1 out1]. cbn [fst] in IH.
    by destruct (run s1 es) as [s2 out2].
Qed.

Lemma calm_from_initial (es : list Event) :
  calm initial es → Duality (run initial es).1.
Proof. apply calm_run_Duality; [apply Inv_initial|apply Settled_initial]. Qed.

Lemma no_pending_no_overtaking (s : State) (e : Event) :
  pending s = ∅ → ¬ overtakes s e.
Proof.
  intros He. destruct e as [|ws [| |type sym]|ws|ws|sym msg|p ok]; simpl; auto.
  intros [_ (p & who & Hp)]. by rewrite He, lookup_empty in Hp.
Qed.

Lemma timely_reply_is_calm :
  calm initial timely_reply
  ∧ Duality (run initial timely_reply).1
  ∧ upstream_balance (channel AAPL) (run initial timely_reply).2 = 1%Z.
Proof.
  assert (Hcalm : calm initial timely_reply).
  { unfold timely_reply. cbn [calm].
    repeat split; try done;
      try (apply no_pending_no_overtaking; by vm_compute);
      by intros []. }
  split; [exact Hcalm|]. split; [by apply calm_from_initial|by vm_compute].
Qed.

Lemma late_reply_is_not_calm : ¬ calm initial late_reply.
Proof.
  unfold late_reply. cbn [calm]. intros (_ & _ & _ & _ & _ & Hno & _).
  apply Hno. split; [done|]. exists 1, FromDisconnection. by vm_compute.
Qed.

(** ** Subscriber sets have no duplicates *)

Lemma handleSubscription_NoDup (s : State) (ws : WebSocket) (sym : JsVal) :
  Sets_NoDup s → Sets_NoDup (handleSubscription s ws sym).1.1.
Proof.
  intros HN. unfold handleSubscription.
  destruct (clientSubscriptions s !! ws); [|done].
  destruct (decide _); [done|]. simpl.
  destruct (globalSubscriptions s !! sym) as [g|] eqn:Hg; simpl;
    intros t subs Hs; simpl in Hs;
    (destruct (decide (t = sym)) as [->|Hne];
      [rewrite lookup_insert_eq in Hs; simplify_eq
      |rewrite lookup_insert_ne in Hs by done; by eapply HN]).
  - eapply NoDup_Set_add, HN, Hg.
  - apply NoDup_singleton.
Qed.

Lemma handleUnsubscription_NoDup (s : State) (ws : WebSocket) (sym : JsVal) :
  Sets_NoDup s → Sets_NoDup (handleUnsubscription s ws sym).1.1.
Proof.
  intros HN. unfold handleUnsubscription.
  destruct (clientSubscriptions s !! ws); [|done].
  destruct (decide _); [|done]. simpl.
  destruct (globalSubscriptions s !! sym) as [g|] eqn:Hg; [|done].
  assert (HN' : Sets_NoDup
            (with_global (<[sym := Set_delete ws g]> (globalSubscriptions s))
               (with_client (<[ws := Set_delete sym l]>
                               (clientSubscriptions s)) s))).
  { intros t subs Hs. simpl in Hs.
    destruct (decide (t = sym)) as [->|Hne].
    - rewrite lookup_insert_eq in Hs. simplify_eq.
      eapply NoDup_Set_delete, HN, Hg.
    - rewrite lookup_insert_ne in Hs by done. by eapply HN. }
  by destruct (decide _).
Qed.

Lemma disconnect_loop_NoDup (ws : WebSocket) (l : list JsVal) :
  ∀ acc, Sets_NoDup acc.1 → Sets_NoDup (foldl (disconnect_each ws) acc l).1.
Proof.
  induction l as [|a l IH]; intros [s e] HN; [done|].
  cbn [foldl]. apply IH.
  destruct (disconnect_each_state ws s e a) as (Hg & _ & _).
  intros t subs Hs. rewrite Hg in Hs.
  by eapply (handleUnsubscription_NoDup s ws a HN).
Qed.

Lemma step_NoDup (s : State) (e : Event) :
  Sets_NoDup s → Sets_NoDup (step s e).1.
Proof.
  intros HN. destruct e as [|ws frame|ws|ws|sym msg|p ok]; simpl; try done.
  - unfold onMessage. destruct frame as [| |type sym]; [done|done|].
    assert (HN' : Sets_NoDup (handleMessage s ws type sym).1.1).
    { unfold handleMessage. repeat case_decide;
        auto using handleSubscription_NoDup, handleUnsubscription_NoDup. }
    destruct (handleMessage s ws type sym) as [[s' e'] c]. by destruct c.
  - unfold handleClientDisconnection.
    set (s1 := with_usersCount _ _).
    assert (HN1 : Sets_NoDup s1) by done.
    set (e1 := [Log info "Client disconnected"]).
    assert (HN2 : Sets_NoDup
              (match clientSubscriptions s1 !! ws with
               | Some clientSubs =>
                   foldl (disconnect_each ws) (s1, e1) clientSubs
               | None => (s1, e1)
               end).1).
    { destruct (clientSubscriptions s1 !! ws); [|done].
      by apply disconnect_loop_NoDup. }
    by destruct (match clientSubscriptions s1 !! ws with
                 | Some _ => _ | None => _ end) as [s2 effs].
  - unfold onRedisReply. destruct (pending s !! p) as [[k who]|]; [|done].
    destruct ok; [|by destruct who].
    assert (HN2 : Sets_NoDup
              (resume (with_pending (delete p (pending s)) s) k).1).
    { destruct k as [sym|sym]; [done|]. intros t subs Hs. simpl in Hs.
      apply lookup_delete_Some in Hs as [_ Hs]. by eapply HN. }
    destruct (resume _ k) as [s2 e2]. by destruct who.
Qed.

Lemma reachable_NoDup (s : State) : reachable s → Sets_NoDup s.
Proof.
  intros [es <-].
  assert (H : ∀ es s0, Sets_NoDup s0 → Sets_NoDup (run s0 es).1).
  { clear es. induction es as [|e es IH]; intros s0 HN; [done|].
    cbn [run]. pose proof (step_NoDup s0 e HN) as HN1.
    destruct (step s0 e) as [s1 out1]. specialize (IH s1 HN1).
    by destruct (run s1 es) as [s2 out2]. }
  apply H. intros sym subs Hs. simpl in Hs. by rewrite lookup_empty in Hs.
Qed.

(** In a reachable state a broadcast sends no socket more than one frame. *)
Lemma broadcast_sends_once (s : State) (sym : JsVal) (payload : string) :
  reachable s → NoDup (filter is_send (step s (RedisMessage sym payload)).2).
Proof.
  intros HN%reachable_NoDup.
  destruct (open_subscribers_are_sent s sym payload)
    as [_ ->].
  assert (Hinj : Inj (=) (=) (λ c : WebSocket, Send c (envelope sym payload)))
    by (by intros x y [= ->]).
  apply (NoDup_fmap_2 _). apply NoDup_filter. unfold subscribers_of.
  destruct (globalSubscriptions s !! sym) as [g|] eqn:Hg; simpl.
  - by eapply HN.
  - apply NoDup_nil_2.
Qed.

(** * Disconnection *)


(** * Repeated requests *)

(** C4.  For a connected socket, a second [subscribe] frame for the same
    topic leaves the whole state as the first one left it (both indices and
    the suspended Redis calls) and produces two debug lines and no Redis
    call; an [unsubscribe] frame for a topic the socket does not have leaves
    the state as it was and produces two debug lines and no Redis call. *)
Theorem repeated_requests_are_ignored
    (s : State) (ws : WebSocket) (sym : JsVal) :
  is_Some (clientSubscriptions s !! ws) →
  (let s1 := (step s (Message ws (subscribeTo sym))).1 in
   step s1 (Message ws (subscribeTo sym))
   = (s1, [Log debug "Duplicate subscription attempt";
           Log debug "Message received"]))
  ∧ (¬ in_client s ws sym →
     step s (Message ws (unsubscribeFrom sym))
     = (s, [Log debug "Unsubscribe attempt for non-subscribed stock";
            Log debug "Message received"])).
Proof.
  intros [cur Hcur]. split.
  - assert (Hdup : ∀ s1 cur1,
              clientSubscriptions s1 !! ws = Some cur1 → sym ∈ cur1 →
              step s1 (Message ws (subscribeTo sym))
              = (s1, [Log debug "Duplicate subscription attempt";
                      Log debug "Message received"])).
    { intros s1 cur1 H1 Hin. simpl. unfold handleMessage, handleSubscription.
      rewrite decide_True by done. by rewrite H1, decide_True. }
    assert (Hfirst : ∃ cur1,
              clientSubscriptions (step s (Message ws (subscribeTo sym))).1
                !! ws = Some cur1 ∧ sym ∈ cur1).
    { unfold step, onMessage, subscribeTo, handleMessage.
      rewrite decide_True by done. unfold handleSubscription. rewrite Hcur.
      destruct (decide (sym ∈ cur)) as [Hin|Hout]; [by exists cur|].
      assert (Hnew : sym ∈ Set_add sym cur) by (apply elem_of_Set_add; by left).
      exists (Set_add sym cur). simpl.
      destruct (globalSubscriptions s !! sym); simpl;
        by rewrite lookup_insert_eq. }
    destruct Hfirst as (cur1 & H1 & Hin). by apply (Hdup _ cur1).
  - intros Hout. simpl. unfold handleMessage, handleUnsubscription.
    rewrite decide_False by done. rewrite decide_True by done.
    rewrite Hcur, decide_False; [done|].
    intros Hin. apply Hout. by exists cur.
Qed.

(** * Redis failures *)

(** C2, as amended.  When a connected socket subscribes to a topic nobody has
    yet and the Redis [subscribe] is rejected, the rejection reaches the
    [catch] of the message handler, which logs one error line; nothing is
    sent to the socket, and both insertions stay: the topic is in the
    socket's set and the topic's subscriber set is the socket alone. *)
Theorem failed_subscribe_keeps_both_insertions
    (s : State) (ws : WebSocket) (sym : JsVal) (cur : list JsVal) :
  clientSubscriptions s !! ws = Some cur → sym ∉ cur →
  globalSubscriptions s !! sym = None →
  (failed_subscribe s ws sym).2
  = [RedisSubscribe (channel sym); Log error "Error processing message"]
  ∧ clientSubscriptions (failed_subscribe s ws sym).1
    = <[ws := cur ++ [sym]]> (clientSubscriptions s)
  ∧ globalSubscriptions (failed_subscribe s ws sym).1
    = <[sym := [ws]]> (globalSubscriptions s)
  ∧ in_client (failed_subscribe s ws sym).1 ws sym
  ∧ in_global (failed_subscribe s ws sym).1 sym ws.
Proof.
  intros Hcur Hout Hg. unfold failed_subscribe, run, step, onMessage.
  unfold subscribeTo, handleMessage. rewrite decide_True by done.
  unfold handleSubscription. rewrite Hcur, decide_False by done. simpl.
  rewrite Hg. simpl. unfold onRedisReply. simpl.
  rewrite lookup_insert_eq. simpl. rewrite Set_add_fresh by done.
  split; [done|]. split; [done|]. split; [done|]. split.
  - eexists. simpl. rewrite lookup_insert_eq. split; [done|].
    apply elem_of_app. right. by left.
  - eexists. simpl. rewrite lookup_insert_eq. split; [done|]. by left.
Qed.

(** C8, as amended.  When the last subscriber of a topic unsubscribes and
    the Redis [unsubscribe] is rejected, the topic has already left the
    socket's set and the socket the topic's set; the statement that drops
    the topic's entry is skipped, so the entry stays with an empty set; the
    rejection reaches the [catch] of the message handler, which logs one
    error line, and Redis is called once. *)
Theorem failed_unsubscribe_keeps_empty_entry
    (s : State) (ws : WebSocket) (sym : JsVal) (cur : list JsVal)
    (g : list WebSocket) :
  clientSubscriptions s !! ws = Some cur → sym ∈ cur →
  globalSubscriptions s !! sym = Some g → (∀ x, x ∈ g → x = ws) →
  (failed_unsubscribe s ws sym).2
  = [RedisUnsubscribe (channel sym); Log error "Error processing message"]
  ∧ clientSubscriptions (failed_unsubscribe s ws sym).1
    = <[ws := Set_delete sym cur]> (clientSubscriptions s)
  ∧ globalSubscriptions (failed_unsubscribe s ws sym).1
    = <[sym := []]> (globalSubscriptions s)
  ∧ ¬ in_client (failed_unsubscribe s ws sym).1 ws sym
  ∧ (∀ x, ¬ in_global (failed_unsubscribe s ws sym).1 sym x)
  ∧ globalSubscriptions (failed_unsubscribe s ws sym).1 !! sym = Some [].
Proof.
  intros Hcur Hin Hg Hall. unfold failed_unsubscribe, run, step, onMessage.
  unfold unsubscribeFrom, handleMessage.
  rewrite decide_False by done. rewrite decide_True by done.
  rewrite (handleUnsubscription_last s ws sym cur g) by done.
  unfold onRedisReply. simpl. rewrite lookup_insert_eq. simpl.
  split; [done|]. split; [done|]. split; [done|]. split; [|split].
  - intros (cs & Hcs & Hsym). simpl in Hcs.
    rewrite lookup_insert_eq in Hcs. simplify_eq.
    by apply elem_of_Set_delete in Hsym as [? _].
  - intros x (subs & Hs & Hx). simpl in Hs.
    rewrite lookup_insert_eq in Hs. simplify_eq. by apply elem_of_nil in Hx.
  - apply lookup_insert_eq.
Qed.

(** * Frames that are not requests *)

(** C9, as amended.  A frame that is not JSON (or is the JSON [null]) gets
    one error line; a frame whose [type] is neither [subscribe] nor
    [unsubscribe] gets one warning and one debug line; in both cases the
    whole state (indices, sockets, suspended calls) is as before and nothing
    is sent.  Nothing is promised for a frame with a request type and no
    [stockSymbol]. *)
Theorem frames_that_are_not_requests_are_dropped
    (s : State) (ws : WebSocket) (frame : Frame) :
  not_a_request frame →
  (step s (Message ws frame)).1 = s
  ∧ (step s (Message ws frame)).2
    = match frame with
      | Fields _ _ => [Log warn "Unknown message type received";
                       Log debug "Message received"]
      | _ => [Log error "Error processing message"]
      end.
Proof.
  destruct frame as [| |type sym]; simpl; [done|done|].
  intros [H1 H2]. unfold handleMessage.
  by rewrite !decide_False by done.
Qed.

(** * A reply that comes late, and the claims that fail as stated *)

(** C1.  The duality of the two indices does not survive [late_reply]: the
    resumed [handleUnsubscription] drops the entry of AAPL although socket 1
    has joined it in the meantime.  Afterwards AAPL is in the set of socket 1
    while socket 1 is in no subscriber set, and an unsubscription of socket 1
    throws at the [globalSubs.delete] of line 127. *)
Theorem duality_broken_by_late_unsubscribe_reply :
  let s := (run initial late_reply).1 in
  in_client s 1 AAPL
  ∧ ¬ in_global s AAPL 1
  ∧ ¬ Duality s
  ∧ (handleUnsubscription s 1 AAPL).2 = Thrown.
Proof.
  intros s.
  assert (Hc : in_client s 1 AAPL).
  { exists [AAPL]. split; [by vm_compute|]. by left. }
  assert (Hg : ¬ in_global s AAPL 1).
  { intros (subs & Hs & _). vm_compute in Hs. discriminate. }
  split; [done|]. split; [done|]. split; [|by vm_compute].
  intros HD. by apply Hg, HD.
Qed.

(** C3.  After the sixth event of [late_reply] socket 1 is the subscriber of
    AAPL, while the calls made on the channel of AAPL are one [subscribe]
    and one [unsubscribe]: the balance is 0 with a subscriber present, and
    the run makes no further Redis call. *)
Theorem upstream_balance_zero_with_subscriber :
  let r := run initial (take 6 late_reply) in
  subscribers_of r.1 AAPL = [1]
  ∧ upstream_balance (channel AAPL) r.2 = 0%Z
  ∧ upstream_balance (channel AAPL) (run initial late_reply).2 = 0%Z
  ∧ in_client (run initial late_reply).1 1 AAPL.
Proof.
  intros r. split; [by vm_compute|]. split; [by vm_compute|].
  split; [by vm_compute|].
  exists [AAPL]. split; [by vm_compute|]. by left.
Qed.

(** C2, as stated, fails: socket 0 is connected and has no topic, AAPL has
    no entry, Redis is called and rejects, and both insertions are still
    there. *)
Lemma failed_subscribe_is_not_rolled_back :
  clientSubscriptions one_connected !! 0 = Some []
  ∧ globalSubscriptions one_connected !! AAPL = None
  ∧ RedisSubscribe (channel AAPL) ∈ (failed_subscribe one_connected 0 AAPL).2
  ∧ ¬ rolled_back (failed_subscribe one_connected 0 AAPL).1 0 AAPL.
Proof.
  split; [by vm_compute|]. split; [by vm_compute|]. split.
  - vm_compute. by left.
  - intros [Hc _]. apply Hc. exists [AAPL]. split; [by vm_compute|]. by left.
Qed.

(** C8, as stated, fails: socket 0 is the only subscriber of AAPL, Redis
    rejects the [unsubscribe], and the entry of AAPL is still in
    [globalSubscriptions]. *)
Lemma failed_unsubscribe_leaves_the_entry :
  clientSubscriptions one_subscribed !! 0 = Some [AAPL]
  ∧ globalSubscriptions one_subscribed !! AAPL = Some [0]
  ∧ globalSubscriptions (failed_unsubscribe one_subscribed 0 AAPL).1 !! AAPL
    ≠ None.
Proof.
  split; [by vm_compute|]. split; [by vm_compute|]. by vm_compute.
Qed.


(** When the unsubscription was started by a disconnection, nobody holds the
    rejected promise: no error line is logged. *)
Lemma failed_unsubscribe_on_disconnection_is_unhandled :
  (run one_subscribed [Close 0; RedisReply (nextPromise one_subscribed) false]).2
  = [Log info "Client disconnected"; RedisUnsubscribe (channel AAPL);
     UnhandledRejection].
Proof. by vm_compute. Qed.

(** C9, as stated, fails: a [subscribe] frame without [stockSymbol] is not
    dropped.  It enters both indices under the key [undefined] and
    subscribes to the channel [orderbook.undefined]. *)
Lemma subscribe_without_stockSymbol_is_processed :
  let r := step one_connected (Message 0 (subscribeTo VUndefined)) in
  globalSubscriptions r.1 !! VUndefined = Some [0]
  ∧ clientSubscriptions r.1 !! 0 = Some [VUndefined]
  ∧ r.2 = [RedisSubscribe "orderbook.undefined"]
  ∧ globalSubscriptions r.1 ≠ globalSubscriptions one_connected.
Proof.
  intros r. split; [by vm_compute|]. split; [by vm_compute|].
  split; [by vm_compute|].
  intros Heq. assert (H : globalSubscriptions r.1 !! VUndefined = None)
    by (rewrite Heq; by vm_compute).
  vm_compute in H. discriminate.
Qed.

(** * The theorems at concrete inputs *)

Lemma broadcast_skips_closed_and_continues_witness :
  globalSubscriptions one_closing_one_open !! AAPL = Some [0; 1]
  ∧ ¬ isOpen one_closing_one_open 0
  ∧ isOpen one_closing_one_open 1
  ∧ Send 1 (envelope AAPL "tick")
    ∈ (step one_closing_one_open (RedisMessage AAPL "tick")).2.
Proof.
  assert (Hg : globalSubscriptions one_closing_one_open !! AAPL = Some [0; 1])
    by reflexivity.
  assert (H0 : ¬ isOpen one_closing_one_open 0)
    by (intros H; vm_compute in H; discriminate).
  assert (H1 : isOpen one_closing_one_open 1) by reflexivity.
  split; [exact Hg|]. split; [exact H0|]. split; [exact H1|].
  refine (proj1 (proj2 (broadcast_skips_closed_and_continues
                          one_closing_one_open AAPL "tick" [0; 1] 0 1
                          Hg _ H0 _ H1))).
  - by left.
  - right. by left.
Defined.

Lemma broadcast_without_subscribers_is_harmless_witness :
  globalSubscriptions one_connected !! AAPL = None
  ∧ (step one_connected (RedisMessage AAPL "tick")).1 = one_connected.
Proof.
  assert (Hg : globalSubscriptions one_connected !! AAPL = None)
    by reflexivity.
  split; [exact Hg|].
  exact (proj1 (broadcast_without_subscribers_is_harmless
                  one_connected AAPL "tick" (or_introl Hg))).
Defined.


Lemma repeated_requests_are_ignored_witness :
  is_Some (clientSubscriptions one_connected !! 0)
  ∧ (let s1 := (step one_connected (Message 0 (subscribeTo AAPL))).1 in
     step s1 (Message 0 (subscribeTo AAPL))
     = (s1, [Log debug "Duplicate subscription attempt";
             Log debug "Message received"])).
Proof.
  assert (Hc : is_Some (clientSubscriptions one_connected !! 0))
    by (exists []; reflexivity).
  split; [exact Hc|].
  exact (proj1 (repeated_requests_are_ignored one_connected 0 AAPL Hc)).
Defined.

Lemma failed_subscribe_keeps_both_insertions_witness :
  clientSubscriptions one_connected !! 0 = Some []
  ∧ (AAPL ∉ @nil JsVal)
  ∧ globalSubscriptions one_connected !! AAPL = None
  ∧ (failed_subscribe one_connected 0 AAPL).2
    = [RedisSubscribe (channel AAPL); Log error "Error processing message"].
Proof.
  assert (Hc : clientSubscriptions one_connected !! 0 = Some [])
    by reflexivity.
  assert (Hn : AAPL ∉ @nil JsVal) by apply not_elem_of_nil.
  assert (Hg : globalSubscriptions one_connected !! AAPL = None)
    by reflexivity.
  split; [exact Hc|]. split; [exact Hn|]. split; [exact Hg|].
  exact (proj1 (failed_subscribe_keeps_both_insertions
                  one_connected 0 AAPL [] Hc Hn Hg)).
Defined.

Lemma failed_unsubscribe_keeps_empty_entry_witness :
  clientSubscriptions one_subscribed !! 0 = Some [AAPL]
  ∧ AAPL ∈ [AAPL]
  ∧ globalSubscriptions one_subscribed !! AAPL = Some [0]
  ∧ (∀ x, x ∈ [0] → x = 0)
  ∧ (failed_unsubscribe one_subscribed 0 AAPL).2
    = [RedisUnsubscribe (channel AAPL); Log error "Error processing message"].
Proof.
  assert (Hc : clientSubscriptions one_subscribed !! 0 = Some [AAPL])
    by reflexivity.
  assert (Hin : AAPL ∈ [AAPL]) by apply list_elem_of_here.
  assert (Hg : globalSubscriptions one_subscribed !! AAPL = Some [0])
    by reflexivity.
  assert (Hall : ∀ x, x ∈ [0] → x = 0).
  { intros x Hx. by apply list_elem_of_singleton in Hx. }
  split; [exact Hc|]. split; [exact Hin|]. split; [exact Hg|].
  split; [exact Hall|].
  exact (proj1 (failed_unsubscribe_keeps_empty_entry
                  one_subscribed 0 AAPL [AAPL] [0] Hc Hin Hg Hall)).
Defined.

Lemma frames_that_are_not_requests_are_dropped_witness :
  not_a_request (Fields (VStr "ping") AAPL)
  ∧ (step one_subscribed (Message 0 (Fields (VStr "ping") AAPL))).1
    = one_subscribed.
Proof.
  assert (Hn : not_a_request (Fields (VStr "ping") AAPL))
    by (split; discriminate).
  split; [exact Hn|].
  exact (proj1 (frames_that_are_not_requests_are_dropped
                  one_subscribed 0 (Fields (VStr "ping") AAPL) Hn)).
Defined.

(** * Further properties of the router *)

(** ** What the handlers put out *)

Ltac plain_output :=
  repeat (apply Forall_cons_2; [simpl; tauto|]); try apply Forall_nil_2.

Lemma handleSubscription_no_send (s : State) (ws : WebSocket) (sym : JsVal) :
  Forall (λ e, ¬ is_send e) (handleSubscription s ws sym).1.2.
Proof.
  unfold handleSubscription.
  destruct (clientSubscriptions s !! ws); [|by plain_output].
  destruct (decide _); [by plain_output|]. simpl.
  destruct (globalSubscriptions s !! sym); by plain_output.
Qed.

Lemma handleUnsubscription_no_send (s : State) (ws : WebSocket) (sym : JsVal) :
  Forall (λ e, ¬ is_send e) (handleUnsubscription s ws sym).1.2.
Proof.
  unfold handleUnsubscription.
  destruct (clientSubscriptions s !! ws); [|by plain_output].
  destruct (decide _); [|by plain_output]. simpl.
  destruct (globalSubscriptions s !! sym); [|by plain_output].
  destruct (decide _); by plain_output.
Qed.

Lemma disconnect_loop_no_send (ws : WebSocket) (l : list JsVal) :
  ∀ acc, Forall (λ e, ¬ is_send e) acc.2 →
         Forall (λ e, ¬ is_send e) (foldl (disconnect_each ws) acc l).2.
Proof.
  induction l as [|a l IH]; intros [s e] Hacc; [done|].
  cbn [foldl]. apply IH. unfold disconnect_each.
  pose proof (handleUnsubscription_no_send s ws a) as Hu.
  destruct (handleUnsubscription s ws a) as [[s' e'] c]. simpl in *.
  destruct c; simpl; rewrite ?Forall_app; repeat split; try done.
  by plain_output.
Qed.

Lemma step_send (s : State) (e : Event) (ws : WebSocket) (env : Envelope) :
  Send ws env ∈ (step s e).2 →
  ∃ sym payload,
    e = RedisMessage sym payload
    ∧ in_global s sym ws ∧ isOpen s ws ∧ env = envelope sym payload.
Proof.
  intros Hin.
  assert (Hno : ∀ out, Forall (λ e, ¬ is_send e) out → Send ws env ∉ out).
  { intros out Hall Hs. rewrite Forall_forall in Hall. by apply (Hall _ Hs). }
  destruct e as [|w frame|w|w|sym msg|p ok]; simpl in Hin.
  - exfalso. revert Hin. apply Hno. by plain_output.
  - exfalso. revert Hin. apply Hno. unfold onMessage.
    destruct frame as [| |type t]; [by plain_output..|].
    assert (Hh : Forall (λ e, ¬ is_send e) (handleMessage s w type t).1.2).
    { unfold handleMessage. repeat case_decide;
        auto using handleSubscription_no_send, handleUnsubscription_no_send.
      by plain_output. }
    destruct (handleMessage s w type t) as [[s' e'] c]. simpl in Hh.
    destruct c; simpl; rewrite ?Forall_app; repeat split; try done;
      by plain_output.
  - by apply elem_of_nil in Hin.
  - exfalso. revert Hin. apply Hno. unfold handleClientDisconnection.
    set (s1 := with_usersCount _ _).
    set (e1 := [Log info "Client disconnected"]).
    assert (H2 : Forall (λ e, ¬ is_send e)
              (match clientSubscriptions s1 !! w with
               | Some clientSubs =>
                   foldl (disconnect_each w) (s1, e1) clientSubs
               | None => (s1, e1)
               end).2).
    { destruct (clientSubscriptions s1 !! w);
        [apply disconnect_loop_no_send|]; by plain_output. }
    by destruct (match clientSubscriptions s1 !! w with
                 | Some _ => _ | None => _ end) as [s2 effs].
  - exists sym, msg. split; [done|].
    by apply (proj1 (open_subscribers_are_sent s sym msg)).
  - exfalso. revert Hin. apply Hno. unfold onRedisReply.
    destruct (pending s !! p) as [[k who]|]; [|by plain_output].
    destruct ok; [|destruct who; by plain_output].
    destruct k; simpl; destruct who; by plain_output.
Qed.

(** X1.  In every state the server can reach, under any interleaving of
    requests and Redis replies, a socket that is in a topic's subscriber set
    has an entry of its own and that entry holds the topic. *)
Theorem subscribers_hold_their_topics
    (s : State) (sym : JsVal) (ws : WebSocket) :
  reachable s → in_global s sym ws → in_client s ws sym.
Proof. intros [H _]%reachable_Inv. apply H. Qed.

(** X2.  The server hands a frame to a socket only when the listener of a
    topic runs, and then only to the open subscribers of that topic: no
    other handler sends anything, neither acknowledgement nor error. *)
Theorem frames_are_sent_only_as_fan_out
    (s : State) (e : Event) (ws : WebSocket) (env : Envelope) :
  Send ws env ∈ (step s e).2 →
  ∃ sym payload,
    e = RedisMessage sym payload
    ∧ in_global s sym ws ∧ isOpen s ws ∧ env = envelope sym payload.
Proof. apply step_send. Qed.

(** ** After the [close] handler *)

Lemma handleUnsubscription_client_ne (s : State) (ws w : WebSocket)
    (sym : JsVal) :
  w ≠ ws →
  clientSubscriptions (handleUnsubscription s ws sym).1.1 !! w
  = clientSubscriptions s !! w.
Proof.
  intros Hne. destruct (clientSubscriptions s !! ws) as [cur|] eqn:Hcur.
  - rewrite (handleUnsubscription_client _ _ _ _ Hcur).
    by rewrite lookup_insert_ne.
  - by rewrite handleUnsubscription_client_None.
Qed.

Lemma disconnect_loop_client_ne (ws w : WebSocket) (l : list JsVal) :
  w ≠ ws →
  ∀ acc, clientSubscriptions (foldl (disconnect_each ws) acc l).1 !! w
         = clientSubscriptions acc.1 !! w.
Proof.
  intros Hne. induction l as [|a l IH]; intros [s e]; [done|].
  cbn [foldl]. rewrite IH.
  destruct (disconnect_each_state ws s e a) as (_ & -> & _).
  by apply handleUnsubscription_client_ne.
Qed.

Lemma disconnect_loop_nextSocket (ws : WebSocket) (l : list JsVal) :
  ∀ acc, nextSocket (foldl (disconnect_each ws) acc l).1 = nextSocket acc.1.
Proof.
  induction l as [|a l IH]; intros [s e]; [done|].
  cbn [foldl]. rewrite IH.
  by destruct (disconnect_each_state ws s e a) as (_ & _ & ->).
Qed.

Lemma handleClientDisconnection_nextSocket (s : State) (ws : WebSocket) :
  nextSocket (handleClientDisconnection s ws).1 = nextSocket s.
Proof.
  unfold handleClientDisconnection.
  set (s1 := with_usersCount _ _).
  set (e1 := [Log info "Client disconnected"]).
  assert (H : nextSocket
            (match clientSubscriptions s1 !! ws with
             | Some clientSubs =>
                 foldl (disconnect_each ws) (s1, e1) clientSubs
             | None => (s1, e1)
             end).1 = nextSocket s).
  { destruct (clientSubscriptions s1 !! ws); [|done].
    by rewrite disconnect_loop_nextSocket. }
  by destruct (match clientSubscriptions s1 !! ws with
               | Some _ => _ | None => _ end) as [s2 effs].
Qed.

Lemma handleClientDisconnection_client_ne (s : State) (ws w : WebSocket) :
  w ≠ ws →
  clientSubscriptions (handleClientDisconnection s ws).1 !! w
  = clientSubscriptions s !! w.
Proof.
  intros Hne. unfold handleClientDisconnection.
  set (s1 := with_usersCount _ _).
  set (e1 := [Log info "Client disconnected"]).
  assert (H : clientSubscriptions
            (match clientSubscriptions s1 !! ws with
             | Some clientSubs =>
                 foldl (disconnect_each ws) (s1, e1) clientSubs
             | None => (s1, e1)
             end).1 !! w = clientSubscriptions s !! w).
  { destruct (clientSubscriptions s1 !! ws); [|done].
    by rewrite disconnect_loop_client_ne. }
  destruct (match clientSubscriptions s1 !! ws with
            | Some _ => _ | None => _ end) as [s2 effs].
  simpl in *. by rewrite lookup_delete_ne.
Qed.

Lemma handleSubscription_client_None (s : State) (ws w : WebSocket)
    (sym : JsVal) :
  clientSubscriptions s !! w = None →
  clientSubscriptions (handleSubscription s ws sym).1.1 !! w = None
  ∧ nextSocket (handleSubscription s ws sym).1.1 = nextSocket s.
Proof.
  intros Hw. unfold handleSubscription.
  destruct (clientSubscriptions s !! ws) as [cur|] eqn:Hcur; [|done].
  destruct (decide _); [done|]. simpl.
  assert (w ≠ ws) by congruence.
  destruct (globalSubscriptions s !! sym); simpl;
    by rewrite lookup_insert_ne.
Qed.

Lemma step_departed (s : State) (e : Event) (ws : WebSocket) :
  departed s ws → departed (step s e).1 ws.
Proof.
  intros [Hnone Hlt]. destruct e as [|w frame|w|w|sym msg|p ok]; simpl.
  - split; simpl; [|lia]. rewrite lookup_insert_ne; [done|lia].
  - unfold onMessage. destruct frame as [| |type t]; [done|done|].
    assert (Hh : departed (handleMessage s w type t).1.1 ws).
    { unfold handleMessage. destruct (decide _).
      - destruct (handleSubscription_client_None s w ws t Hnone) as [H1 H2].
        split; [done|]. by rewrite H2.
      - destruct (decide _); [|done]. split.
        + destruct (decide (ws = w)) as [->|Hne].
          * by rewrite handleUnsubscription_client_None.
          * by rewrite handleUnsubscription_client_ne.
        + by rewrite handleUnsubscription_nextSocket. }
    destruct (handleMessage s w type t) as [[s' e'] c]. by destruct c.
  - done.
  - split.
    + destruct (decide (ws = w)) as [->|Hne].
      * unfold handleClientDisconnection. simpl. rewrite Hnone. simpl.
        apply lookup_delete_eq.
      * by rewrite handleClientDisconnection_client_ne.
    + by rewrite handleClientDisconnection_nextSocket.
  - done.
  - unfold onRedisReply. destruct (pending s !! p) as [[k who]|]; [|done].
    destruct ok; [|by destruct who].
    destruct k; simpl; by destruct who.
Qed.

(** X3.  Once the [close] handler of a connected socket has run, no later
    event makes the server send that socket a frame, whatever follows:
    frames of the closed socket, late Redis replies, Redis messages. *)
Theorem no_frame_after_close
    (s : State) (ws : WebSocket) (es : list Event) (env : Envelope) :
  reachable s → ws < nextSocket s →
  Send ws env ∉ (run (step s (Close ws)).1 es).2.
Proof.
  intros HI%reachable_Inv Hlt.
  assert (HI1 : Inv (step s (Close ws)).1) by by apply step_Inv.
  assert (Hd : departed (step s (Close ws)).1 ws).
  { split.
    - simpl. apply handleClientDisconnection_spec.
      by eapply Inv_same_indices; [| | |exact HI].
    - simpl. by rewrite handleClientDisconnection_nextSocket. }
  generalize dependent (step s (Close ws)).1. clear s HI Hlt.
  induction es as [|e es IH]; intros s HI Hd; [apply not_elem_of_nil|].
  cbn [run].
  pose proof (step_Inv s e HI) as HI1.
  pose proof (step_departed s e ws Hd) as Hd1.
  assert (Hstep : Send ws env ∉ (step s e).2).
  { intros (sym & payload & _ & Hg & _)%step_send.
    destruct HI as [H1 _]. destruct (H1 sym ws Hg) as (cs & Hcs & _).
    destruct Hd as [Hnone _]. congruence. }
  specialize (IH (step s e).1 HI1 Hd1).
  destruct (step s e) as [s1 out1]. cbn [fst snd] in *.
  destruct (run s1 es) as [s2 out2]. cbn [snd] in *.
  by intros [?|?]%elem_of_app.
Qed.

(** ** Requests, one at a time *)

Lemma step_subscribe_first (s : State) (ws : WebSocket) (sym : JsVal)
    (cur : list JsVal) :
  clientSubscriptions s !! ws = Some cur → sym ∉ cur →
  globalSubscriptions s !! sym = None →
  step s (Message ws (subscribeTo sym))
  = (suspend (AfterSubscribe sym) FromMessage
       (with_global (<[sym := [ws]]> (globalSubscriptions s))
          (with_client (<[ws := cur ++ [sym]]> (clientSubscriptions s)) s)),
     [RedisSubscribe (channel sym)]).
Proof.
  intros Hcur Hout Hg. unfold step, onMessage, subscribeTo, handleMessage.
  rewrite decide_True by done. unfold handleSubscription.
  rewrite Hcur, decide_False by done. simpl. rewrite Hg.
  by rewrite Set_add_fresh.
Qed.

Lemma step_subscribe_join (s : State) (ws : WebSocket) (sym : JsVal)
    (cur : list JsVal) (g : list WebSocket) :
  clientSubscriptions s !! ws = Some cur → sym ∉ cur →
  globalSubscriptions s !! sym = Some g → ws ∉ g →
  step s (Message ws (subscribeTo sym))
  = (with_global (<[sym := g ++ [ws]]> (globalSubscriptions s))
       (with_client (<[ws := cur ++ [sym]]> (clientSubscriptions s)) s),
     [Log info "Client added to existing subscription";
      Log debug "Message received"]).
Proof.
  intros Hcur Hout Hg Hws. unfold step, onMessage, subscribeTo, handleMessage.
  rewrite decide_True by done. unfold handleSubscription.
  rewrite Hcur, decide_False by done. simpl. rewrite Hg.
  by rewrite !Set_add_fresh.
Qed.

Lemma step_unsubscribe_last (s : State) (ws : WebSocket) (sym : JsVal)
    (cur : list JsVal) (g : list WebSocket) :
  clientSubscriptions s !! ws = Some cur → sym ∈ cur →
  globalSubscriptions s !! sym = Some g → (∀ x, x ∈ g → x = ws) →
  step s (Message ws (unsubscribeFrom sym))
  = (suspend (AfterUnsubscribe sym) FromMessage
       (with_global (<[sym := []]> (globalSubscriptions s))
          (with_client (<[ws := Set_delete sym cur]>
                          (clientSubscriptions s)) s)),
     [RedisUnsubscribe (channel sym)]).
Proof.
  intros Hcur Hin Hg Hall. unfold step, onMessage, unsubscribeFrom.
  unfold handleMessage. rewrite decide_False by done.
  rewrite decide_True by done.
  by rewrite (handleUnsubscription_last s ws sym cur g).
Qed.

Lemma step_unsubscribe_other (s : State) (ws other : WebSocket) (sym : JsVal)
    (cur : list JsVal) (g : list WebSocket) :
  clientSubscriptions s !! ws = Some cur → sym ∈ cur →
  globalSubscriptions s !! sym = Some g → other ∈ g → other ≠ ws →
  step s (Message ws (unsubscribeFrom sym))
  = (with_global (<[sym := Set_delete ws g]> (globalSubscriptions s))
       (with_client (<[ws := Set_delete sym cur]> (clientSubscriptions s)) s),
     [Log info "Client removed from subscription";
      Log debug "Message received"]).
Proof.
  intros Hcur Hin Hg Hother Hne. unfold step, onMessage, unsubscribeFrom.
  unfold handleMessage. rewrite decide_False by done.
  rewrite decide_True by done. unfold handleUnsubscription.
  rewrite Hcur, decide_True by done. simpl. rewrite Hg.
  rewrite decide_False; [done|].
  intros Hz%nil_length_inv.
  assert (Hin' : other ∈ Set_delete ws g) by by apply elem_of_Set_delete.
  rewrite Hz in Hin'. by apply elem_of_nil in Hin'.
Qed.

Lemma step_reply_fulfilled (s : State) (p : nat) (k : Resume) :
  pending s !! p = Some (k, FromMessage) →
  step s (RedisReply p true)
  = ((resume (with_pending (delete p (pending s)) s) k).1,
     (resume (with_pending (delete p (pending s)) s) k).2
       ++ [Log debug "Message received"]).
Proof.
  intros Hp. unfold step, onRedisReply. rewrite Hp.
  by destruct (resume _ k).
Qed.

Lemma Set_delete_last {A} `{EqDecision A} (x : A) (l : list A) :
  x ∉ l → Set_delete x (l ++ [x]) = l.
Proof.
  intros Hx. unfold Set_delete. rewrite filter_app.
  fold (Set_delete x l). rewrite Set_delete_absent by done.
  rewrite filter_cons, decide_False by tauto. simpl. apply app_nil_r.
Qed.

(** X4.  Round trip.  For a connected socket and a topic it does not have:
    if the topic has no entry, subscribing and then unsubscribing, each
    confirmed by Redis, puts both indices back as they were and calls Redis
    [subscribe] once and [unsubscribe] once on the topic's channel; if the
    topic has other subscribers, the two requests put both indices back and
    Redis is not called at all. *)
Theorem subscribe_then_unsubscribe_restores_indices
    (s : State) (ws : WebSocket) (sym : JsVal) (cur : list JsVal) :
  clientSubscriptions s !! ws = Some cur → sym ∉ cur →
  (globalSubscriptions s !! sym = None →
   clientSubscriptions (run s (subscribe_and_leave s ws sym)).1
   = clientSubscriptions s
   ∧ globalSubscriptions (run s (subscribe_and_leave s ws sym)).1
     = globalSubscriptions s
   ∧ (run s (subscribe_and_leave s ws sym)).2
     = [RedisSubscribe (channel sym);
        Log info "New stock subscription created";
        Log debug "Message received";
        RedisUnsubscribe (channel sym);
        Log info "Stock subscription removed";
        Log debug "Message received"])
  ∧ (∀ g, globalSubscriptions s !! sym = Some g → g ≠ [] → ws ∉ g →
     clientSubscriptions
       (run s [Message ws (subscribeTo sym);
               Message ws (unsubscribeFrom sym)]).1
     = clientSubscriptions s
     ∧ globalSubscriptions
         (run s [Message ws (subscribeTo sym);
                 Message ws (unsubscribeFrom sym)]).1
       = globalSubscriptions s
     ∧ (run s [Message ws (subscribeTo sym);
               Message ws (unsubscribeFrom sym)]).2
       = [Log info "Client added to existing subscription";
          Log debug "Message received";
          Log info "Client removed from subscription";
          Log debug "Message received"]).
Proof.
  intros Hcur Hout. split.
  - intros Hg. unfold subscribe_and_leave. cbn [run].
    rewrite (step_subscribe_first s ws sym cur) by done.
    set (s1 := suspend _ _ _).
    rewrite (step_reply_fulfilled s1 (nextPromise s) (AfterSubscribe sym))
      by apply lookup_insert_eq.
    cbn [resume fst snd].
    set (s2 := with_pending _ s1).
    rewrite (step_unsubscribe_last s2 ws sym (cur ++ [sym]) [ws]);
      [|apply lookup_insert_eq|apply elem_of_app; right; by left
       |apply lookup_insert_eq|by intros x ?%list_elem_of_singleton].
    set (s3 := suspend _ _ _).
    rewrite (step_reply_fulfilled s3 (S (nextPromise s))
               (AfterUnsubscribe sym)) by apply lookup_insert_eq.
    cbn. rewrite Set_delete_last by done.
    rewrite insert_insert_eq, (insert_id _ _ _ Hcur).
    rewrite !delete_insert_eq, (delete_id _ _ Hg). done.
  - intros g Hg Hne Hws. cbn [run].
    assert (Hother : ∃ other, other ∈ g)
      by (destruct g as [|x g']; [done|exists x; by left]).
    destruct Hother as [other Hother].
    rewrite (step_subscribe_join s ws sym cur g) by done.
    set (s1 := with_global _ _).
    rewrite (step_unsubscribe_other s1 ws other sym (cur ++ [sym]) (g ++ [ws]));
      [|apply lookup_insert_eq|apply elem_of_app; right; by left
       |apply lookup_insert_eq|apply elem_of_app; by left|by intros ->].
    cbn. rewrite !Set_delete_last by done.
    rewrite !insert_insert_eq, (insert_id _ _ _ Hcur), (insert_id _ _ _ Hg).
    done.
Qed.

(** X5.  When a socket unsubscribes from a topic that another socket still
    has, the request completes at once: the socket and the topic leave each
    other's sets, the other subscribers stay, Redis is not called and
    nothing waits for a reply. *)
Theorem unsubscribe_keeps_upstream_for_the_others
    (s : State) (ws other : WebSocket) (sym : JsVal)
    (cur : list JsVal) (g : list WebSocket) :
  clientSubscriptions s !! ws = Some cur → sym ∈ cur →
  globalSubscriptions s !! sym = Some g → other ∈ g → other ≠ ws →
  step s (Message ws (unsubscribeFrom sym))
  = (with_global (<[sym := Set_delete ws g]> (globalSubscriptions s))
       (with_client (<[ws := Set_delete sym cur]> (clientSubscriptions s)) s),
     [Log info "Client removed from subscription";
      Log debug "Message received"])
  ∧ in_global (step s (Message ws (unsubscribeFrom sym))).1 sym other
  ∧ pending (step s (Message ws (unsubscribeFrom sym))).1 = pending s.
Proof.
  intros Hcur Hin Hg Hother Hne.
  rewrite (step_unsubscribe_other s ws other sym cur g) by done.
  split; [done|]. split; [|done].
  eexists. simpl. rewrite lookup_insert_eq. split; [done|].
  by apply elem_of_Set_delete.
Qed.

(** X6.  A frame from a socket that has no entry (its [close] handler has
    run, or it never connected) changes nothing, whatever it asks: the state
    stays as it is and the output is log lines only. *)
Theorem frames_of_unknown_sockets_change_nothing
    (s : State) (ws : WebSocket) (frame : Frame) :
  clientSubscriptions s !! ws = None →
  (step s (Message ws frame)).1 = s
  ∧ Forall (λ e, ∃ lvl msg, e = Log lvl msg) (step s (Message ws frame)).2.
Proof.
  intros Hnone. unfold step, onMessage.
  destruct frame as [| |type sym]; [split; [done|]; repeat constructor; eauto..|].
  unfold handleMessage, handleSubscription, handleUnsubscription.
  rewrite Hnone. repeat case_decide; simpl;
    (split; [done|]; repeat constructor; eauto).
Qed.

(** X7.  When a socket unsubscribes from a topic of its own set that has no
    entry in [globalSubscriptions], the handler fails after it has taken the
    topic out of the socket's set: that removal stays, one error line is
    logged, Redis is not called and nothing waits for a reply. *)
Theorem unsubscribe_without_entry_still_forgets_the_topic
    (s : State) (ws : WebSocket) (sym : JsVal) (cur : list JsVal) :
  clientSubscriptions s !! ws = Some cur → sym ∈ cur →
  globalSubscriptions s !! sym = None →
  step s (Message ws (unsubscribeFrom sym))
  = (with_client (<[ws := Set_delete sym cur]> (clientSubscriptions s)) s,
     [Log error "Error processing message"])
  ∧ ¬ in_client (step s (Message ws (unsubscribeFrom sym))).1 ws sym.
Proof.
  intros Hcur Hin Hg.
  assert (Hstep : step s (Message ws (unsubscribeFrom sym))
            = (with_client (<[ws := Set_delete sym cur]>
                              (clientSubscriptions s)) s,
               [Log error "Error processing message"])).
  { unfold step, onMessage, unsubscribeFrom, handleMessage.
    rewrite decide_False by done. rewrite decide_True by done.
    unfold handleUnsubscription. rewrite Hcur, decide_True by done.
    simpl. by rewrite Hg. }
  rewrite Hstep. split; [done|].
  intros (cs & Hcs & Hsym). simpl in Hcs. rewrite lookup_insert_eq in Hcs.
  simplify_eq. by apply elem_of_Set_delete in Hsym as [? _].
Qed.

(** ** Where the Redis calls come from *)

Ltac absent_from_output H :=
  repeat (apply elem_of_cons in H as [H|H]; [discriminate H|]);
  by apply elem_of_nil in H.

Lemma handleUnsubscription_no_subscribe (s : State) (ws : WebSocket)
    (sym : JsVal) (ch : string) :
  RedisSubscribe ch ∉ (handleUnsubscription s ws sym).1.2.
Proof.
  unfold handleUnsubscription. intros Hin.
  destruct (clientSubscriptions s !! ws); [|absent_from_output Hin].
  destruct (decide _); [|absent_from_output Hin]. simpl in Hin.
  destruct (globalSubscriptions s !! sym); [|absent_from_output Hin].
  destruct (decide _); absent_from_output Hin.
Qed.

Lemma handleUnsubscription_call (s : State) (ws : WebSocket) (sym : JsVal)
    (ch : string) :
  RedisUnsubscribe ch ∈ (handleUnsubscription s ws sym).1.2 →
  ch = channel sym
  ∧ in_client s ws sym
  ∧ globalSubscriptions (handleUnsubscription s ws sym).1.1 !! sym = Some [].
Proof.
  unfold handleUnsubscription. intros Hin.
  destruct (clientSubscriptions s !! ws) as [cur|] eqn:Hcur;
    [|absent_from_output Hin].
  destruct (decide (sym ∈ cur)); [|absent_from_output Hin]. simpl in Hin |- *.
  destruct (globalSubscriptions s !! sym) as [g|]; [|absent_from_output Hin].
  destruct (decide (Set_size (Set_delete ws g) = 0)) as [Hz|];
    [|absent_from_output Hin].
  apply list_elem_of_singleton in Hin as [= ->]. simpl.
  split; [done|]. split; [by exists cur|].
  rewrite lookup_insert_eq. apply nil_length_inv in Hz. by rewrite Hz.
Qed.

Lemma handleUnsubscription_in_client (s : State) (ws : WebSocket)
    (sym t : JsVal) :
  in_client (handleUnsubscription s ws sym).1.1 ws t → in_client s ws t.
Proof.
  intros (cs & Hcs & Ht).
  destruct (clientSubscriptions s !! ws) as [cur|] eqn:Hcur.
  - rewrite (handleUnsubscription_client _ _ _ _ Hcur) in Hcs.
    rewrite lookup_insert_eq in Hcs. simplify_eq.
    apply elem_of_Set_delete in Ht as [_ Ht]. by exists cur.
  - rewrite handleUnsubscription_client_None in Hcs by done.
    simpl in Hcs. congruence.
Qed.

Lemma disconnect_loop_calls (ws : WebSocket) (ch : string) (l : list JsVal) :
  ∀ acc,
    (RedisSubscribe ch ∈ (foldl (disconnect_each ws) acc l).2 →
     RedisSubscribe ch ∈ acc.2)
    ∧ (RedisUnsubscribe ch ∈ (foldl (disconnect_each ws) acc l).2 →
       RedisUnsubscribe ch ∈ acc.2
       ∨ ∃ sym, ch = channel sym ∧ in_client acc.1 ws sym
                ∧ globalSubscriptions (foldl (disconnect_each ws) acc l).1
                    !! sym = Some []).
Proof.
  induction l as [|a l IH]; intros [s e]; [by split; [|left]|].
  cbn [foldl]. destruct (IH (disconnect_each ws (s, e) a)) as [IHs IHu].
  destruct (disconnect_each_state ws s e a) as (Hg & Hc & _).
  assert (Hout : ∀ x, x ∈ (disconnect_each ws (s, e) a).2 →
            x ∈ e ∨ x ∈ (handleUnsubscription s ws a).1.2
            ∨ x = UnhandledRejection).
  { intros x. unfold disconnect_each.
    destruct (handleUnsubscription s ws a) as [[s' e'] c]. simpl.
    destruct c; simpl; rewrite ?elem_of_app, ?list_elem_of_singleton; tauto. }
  split.
  - intros Hin%IHs. apply Hout in Hin as [?|[Hin|?]]; [done| |done].
    by apply handleUnsubscription_no_subscribe in Hin.
  - intros [Hin|(sym & -> & Hcl & Hempty)]%IHu.
    + apply Hout in Hin as [?|[Hin|?]]; [by left| |done].
      apply handleUnsubscription_call in Hin as (-> & Hcl & Hempty).
      right. exists a. split; [done|]. split; [done|].
      apply disconnect_loop_keeps_empty. by rewrite Hg.
    + right. exists sym. split; [done|]. split; [|done].
      apply (handleUnsubscription_in_client s ws a).
      destruct Hcl as (cs & Hcs & Ht). exists cs. by rewrite <- Hc.
Qed.

Lemma broadcast_output (s : State) (sym : JsVal) (msg : string) (x : Effect) :
  x ∈ broadcastToSubscribers s sym msg → ¬ is_redis_call x.
Proof.
  intros Hin. destruct (globalSubscriptions s !! sym) as [g|] eqn:Hg.
  - rewrite (broadcast_unfold _ _ _ _ Hg) in Hin.
    apply elem_of_app in Hin as [Hin|Hin%list_elem_of_singleton];
      [|subst; simpl; tauto].
    apply list_elem_of_fmap in Hin as (c & -> & _). simpl. tauto.
  - unfold broadcastToSubscribers in Hin. rewrite Hg in Hin.
    by apply elem_of_nil in Hin.
Qed.

Lemma onRedisReply_output (s : State) (p : nat) (ok : bool) (x : Effect) :
  x ∈ (onRedisReply s p ok).2 → ¬ is_redis_call x.
Proof.
  unfold onRedisReply. intros Hin.
  destruct (pending s !! p) as [[k who]|]; [|by apply elem_of_nil in Hin].
  destruct ok, k, who; simpl in Hin;
    repeat (apply elem_of_cons in Hin as [->|Hin]; [simpl; tauto|]);
    by apply elem_of_nil in Hin.
Qed.

(** X8.  Redis [subscribe] is called by one thing only: a [subscribe] frame
    of a connected socket for a topic that is not in the socket's set and
    has no entry.  The call is on the channel of that topic, and when the
    handler pauses at its [await] the topic's subscriber set is that socket
    alone. *)
Theorem redis_subscribe_only_for_a_first_subscriber
    (s : State) (e : Event) (ch : string) :
  RedisSubscribe ch ∈ (step s e).2 →
  ∃ ws sym cur,
    e = Message ws (subscribeTo sym)
    ∧ ch = channel sym
    ∧ clientSubscriptions s !! ws = Some cur ∧ (sym ∉ cur)
    ∧ globalSubscriptions s !! sym = None
    ∧ globalSubscriptions (step s e).1 !! sym = Some [ws].
Proof.
  intros Hin. destruct e as [|ws frame|ws|ws|sym msg|p ok].
  - simpl in Hin. absent_from_output Hin.
  - destruct frame as [| |type sym];
      [simpl in Hin; absent_from_output Hin..|].
    destruct (decide (type = VStr "subscribe")) as [->|Hsub].
    + destruct (clientSubscriptions s !! ws) as [cur|] eqn:Hcur.
      * destruct (decide (sym ∈ cur)) as [Hsym|Hsym].
        -- exfalso. revert Hin. unfold step, onMessage, handleMessage.
           rewrite decide_True by done. unfold handleSubscription.
           rewrite Hcur, decide_True by done. simpl.
           intros Hin. absent_from_output Hin.
        -- destruct (globalSubscriptions s !! sym) as [g|] eqn:Hg.
           ++ exfalso. revert Hin. unfold step, onMessage, handleMessage.
              rewrite decide_True by done. unfold handleSubscription.
              rewrite Hcur, decide_False by done. simpl. rewrite Hg. simpl.
              intros Hin. absent_from_output Hin.
           ++ fold (subscribeTo sym) in Hin |- *.
              rewrite (step_subscribe_first s ws sym cur) in Hin |- * by done.
              apply list_elem_of_singleton in Hin as [= ->].
              exists ws, sym, cur. repeat split; try done.
              simpl. apply lookup_insert_eq.
      * exfalso. revert Hin. unfold step, onMessage, handleMessage.
        rewrite decide_True by done. unfold handleSubscription.
        rewrite Hcur. simpl. intros Hin. absent_from_output Hin.
    + exfalso. revert Hin. unfold step, onMessage, handleMessage.
      rewrite decide_False by done.
      destruct (decide (type = VStr "unsubscribe")); simpl;
        [|intros Hin; absent_from_output Hin].
      pose proof (handleUnsubscription_no_subscribe s ws sym ch) as Hno.
      destruct (handleUnsubscription s ws sym) as [[s' e'] c]. simpl in Hno.
      destruct c; simpl; rewrite ?elem_of_app; try tauto;
        intros [?|Hin]; try done; absent_from_output Hin.
  - simpl in Hin. by apply elem_of_nil in Hin.
  - exfalso. revert Hin. unfold step, handleClientDisconnection.
    set (s1 := with_usersCount _ _).
    set (e1 := [Log info "Client disconnected"]).
    assert (H2 : RedisSubscribe ch ∉
              (match clientSubscriptions s1 !! ws with
               | Some clientSubs =>
                   foldl (disconnect_each ws) (s1, e1) clientSubs
               | None => (s1, e1)
               end).2).
    { destruct (clientSubscriptions s1 !! ws) as [cur|].
      - intros Hin%(proj1 (disconnect_loop_calls ws ch cur (s1, e1))).
        simpl in Hin. absent_from_output Hin.
      - simpl. intros Hin. absent_from_output Hin. }
    by destruct (match clientSubscriptions s1 !! ws with
                 | Some _ => _ | None => _ end) as [s2 effs].
  - simpl in Hin. by apply broadcast_output in Hin.
  - simpl in Hin. by apply onRedisReply_output in Hin.
Qed.

(** X9.  Redis [unsubscribe] is called only while a socket leaves a topic of
    its own set, by an [unsubscribe] frame or by its [close] handler, on the
    channel of that topic, and only when the topic is then left with an
    entry that holds no subscriber. *)
Theorem redis_unsubscribe_only_when_a_topic_empties
    (s : State) (e : Event) (ch : string) :
  RedisUnsubscribe ch ∈ (step s e).2 →
  ∃ ws sym,
    (e = Message ws (unsubscribeFrom sym) ∨ e = Close ws)
    ∧ ch = channel sym
    ∧ in_client s ws sym
    ∧ globalSubscriptions (step s e).1 !! sym = Some [].
Proof.
  intros Hin. destruct e as [|ws frame|ws|ws|sym msg|p ok].
  - simpl in Hin. absent_from_output Hin.
  - destruct frame as [| |type sym];
      [simpl in Hin; absent_from_output Hin..|].
    unfold step, onMessage, handleMessage in Hin |- *.
    destruct (decide (type = VStr "subscribe")) as [->|Hsub].
    + exfalso. revert Hin. unfold handleSubscription.
      destruct (clientSubscriptions s !! ws) as [cur|]; simpl;
        [|intros Hin; absent_from_output Hin].
      destruct (decide _); simpl; [intros Hin; absent_from_output Hin|].
      destruct (globalSubscriptions s !! sym); simpl;
        intros Hin; absent_from_output Hin.
    + destruct (decide (type = VStr "unsubscribe")) as [->|Hunsub];
        [|simpl in Hin; absent_from_output Hin].
      pose proof (handleUnsubscription_call s ws sym ch) as Hcall.
      destruct (handleUnsubscription s ws sym) as [[s' e'] c].
      simpl in Hcall.
      assert (Hin' : RedisUnsubscribe ch ∈ e').
      { destruct c; simpl in Hin; rewrite ?elem_of_app in Hin; try done;
          destruct Hin as [?|Hin]; try done; absent_from_output Hin. }
      destruct (Hcall Hin') as (-> & Hcl & Hempty).
      exists ws, sym. split; [by left|]. split; [done|]. split; [done|].
      by destruct c.
  - simpl in Hin. by apply elem_of_nil in Hin.
  - unfold step, handleClientDisconnection in Hin |- *.
    set (s0 := with_readyState _ s) in *.
    set (s1 := with_usersCount _ _) in *.
    set (e1 := [Log info "Client disconnected"]) in *.
    assert (H2 : RedisUnsubscribe ch ∈
              (match clientSubscriptions s1 !! ws with
               | Some clientSubs =>
                   foldl (disconnect_each ws) (s1, e1) clientSubs
               | None => (s1, e1)
               end).2 →
              ∃ sym, ch = channel sym ∧ in_client s ws sym
                ∧ globalSubscriptions
                    (match clientSubscriptions s1 !! ws with
                     | Some clientSubs =>
                         foldl (disconnect_each ws) (s1, e1) clientSubs
                     | None => (s1, e1)
                     end).1 !! sym = Some []).
    { destruct (clientSubscriptions s1 !! ws) as [cur|].
      - intros [Hx|(sym & -> & Hcl & He)]%
          (proj2 (disconnect_loop_calls ws ch cur (s1, e1))).
        + simpl in Hx. absent_from_output Hx.
        + by exists sym.
      - simpl. intros Hx. absent_from_output Hx. }
    destruct (match clientSubscriptions s1 !! ws with
              | Some _ => _ | None => _ end) as [s2 effs].
    destruct (H2 Hin) as (sym & -> & Hcl & He).
    exists ws, sym. split; [by right|]. done.
  - simpl in Hin. by apply broadcast_output in Hin.
  - simpl in Hin. by apply onRedisReply_output in Hin.
Qed.

(** ** The connection counter *)

Lemma handleSubscription_count (s : State) (ws : WebSocket) (sym : JsVal) :
  usersCount (handleSubscription s ws sym).1.1 = usersCount s
  ∧ size (clientSubscriptions (handleSubscription s ws sym).1.1)
    = size (clientSubscriptions s).
Proof.
  unfold handleSubscription.
  destruct (clientSubscriptions s !! ws) as [cur|] eqn:Hcur; [|done].
  destruct (decide _); [done|]. simpl.
  destruct (globalSubscriptions s !! sym); simpl;
    (split; [done|]; by apply map_size_insert_Some).
Qed.

Lemma handleUnsubscription_count (s : State) (ws : WebSocket) (sym : JsVal) :
  usersCount (handleUnsubscription s ws sym).1.1 = usersCount s
  ∧ size (clientSubscriptions (handleUnsubscription s ws sym).1.1)
    = size (clientSubscriptions s).
Proof.
  unfold handleUnsubscription.
  destruct (clientSubscriptions s !! ws) as [cur|] eqn:Hcur; [|done].
  destruct (decide _); [|done]. simpl.
  destruct (globalSubscriptions s !! sym); simpl;
    [destruct (decide _); simpl|];
    (split; [done|]; by apply map_size_insert_Some).
Qed.

Lemma disconnect_loop_count (ws : WebSocket) (l : list JsVal) :
  ∀ acc,
    usersCount (foldl (disconnect_each ws) acc l).1 = usersCount acc.1
    ∧ size (clientSubscriptions (foldl (disconnect_each ws) acc l).1)
      = size (clientSubscriptions acc.1).
Proof.
  induction l as [|a l IH]; intros [s e]; [done|].
  cbn [foldl]. destruct (IH (disconnect_each ws (s, e) a)) as [-> ->].
  destruct (handleUnsubscription_count s ws a) as [Hu Hsz].
  unfold disconnect_each.
  destruct (handleUnsubscription s ws a) as [[s' e'] c]. by destruct c.
Qed.

Lemma step_Counted (s : State) (e : Event) :
  Inv s → Counted s →
  match e with
  | Close ws => is_Some (clientSubscriptions s !! ws)
  | _ => True
  end →
  Counted (step s e).1.
Proof.
  unfold Counted. intros [_ Hkeys] Hcount Hok.
  destruct e as [|ws frame|ws|ws|sym msg|p ok]; simpl.
  - rewrite map_size_insert_None; [lia|].
    destruct (clientSubscriptions s !! nextSocket s) eqn:E; [|done].
    assert (nextSocket s < nextSocket s); [|lia]. apply Hkeys. by eexists.
  - unfold onMessage. destruct frame as [| |type sym]; [done|done|].
    assert (Hh : usersCount (handleMessage s ws type sym).1.1 = usersCount s
              ∧ size (clientSubscriptions (handleMessage s ws type sym).1.1)
                = size (clientSubscriptions s)).
    { unfold handleMessage. repeat case_decide;
        auto using handleSubscription_count, handleUnsubscription_count. }
    destruct (handleMessage s ws type sym) as [[s' e'] c].
    destruct Hh as [Hu Hsz]. simpl in Hu, Hsz.
    destruct c; simpl; lia.
  - done.
  - unfold handleClientDisconnection.
    set (s0 := with_readyState _ s).
    set (s1 := with_usersCount _ _).
    set (e1 := [Log info "Client disconnected"]).
    destruct Hok as [cur Hcur].
    assert (Hcur1 : clientSubscriptions s1 !! ws = Some cur) by done.
    rewrite Hcur1.
    destruct (disconnect_loop_count ws cur (s1, e1)) as [Hu Hsz].
    destruct (disconnect_loop_client ws cur (s1, e1) cur Hcur1)
      as (cur' & Hcur' & _).
    destruct (foldl (disconnect_each ws) (s1, e1) cur) as [s2 effs].
    simpl in *. rewrite map_size_delete_Some by by eexists.
    rewrite Hu, Hsz.
    assert (size (clientSubscriptions s) ≠ 0).
    { intros Hz%map_size_empty_inv. rewrite Hz in Hcur.
      by rewrite lookup_empty in Hcur. }
    lia.
  - done.
  - unfold onRedisReply. destruct (pending s !! p) as [[k who]|]; [|done].
    destruct ok; [|by destruct who].
    destruct k; simpl; by destruct who.
Qed.

(** X10.  On every run in which [close] is only handled for sockets that
    have an entry, [usersCount] is the number of sockets that have an entry
    in [clientSubscriptions], after every event: the count logged at
    connection and disconnection is the number of connected clients. *)
Theorem usersCount_counts_the_connected_sockets (es : list Event) :
  closes_connected initial es →
  usersCount (run initial es).1
  = Z.of_nat (size (clientSubscriptions (run initial es).1)).
Proof.
  assert (H : ∀ s, Inv s → Counted s → closes_connected s es →
              Counted (run s es).1).
  { induction es as [|e es IH]; intros s HI HC Hes; [done|].
    destruct Hes as [Hnow Hnext]. cbn [run].
    pose proof (step_Inv s e HI) as HI1.
    pose proof (step_Counted s e HI HC Hnow) as HC1.
    specialize (IH (step s e).1 HI1 HC1 Hnext).
    destruct (step s e) as [s1 out1]. cbn [fst] in IH.
    by destruct (run s1 es) as [s2 out2]. }
  intros Hes. apply H; [apply Inv_initial|done|done].
Qed.

(** ** The counters of a broadcast *)

(** X11.  The three numbers of the debug line that ends a broadcast are
    consistent: [successCount] is the number of frames the broadcast sent,
    [totalSubscribers] is the size of the topic's set, and [successCount]
    and [failCount] add up to it. *)
Theorem broadcast_counters_add_up
    (s : State) (sym : JsVal) (payload : string)
    (successCount failCount totalSubscribers : nat) :
  LogBroadcast successCount failCount totalSubscribers
    ∈ (step s (RedisMessage sym payload)).2 →
  successCount + failCount = totalSubscribers
  ∧ totalSubscribers = length (subscribers_of s sym)
  ∧ successCount
    = length (filter is_send (step s (RedisMessage sym payload)).2).
Proof.
  intros Hin.
  destruct (open_subscribers_are_sent s sym payload) as [_ Hsends].
  rewrite Hsends, length_fmap. simpl in Hin. unfold subscribers_of.
  destruct (globalSubscriptions s !! sym) as [g|] eqn:Hg.
  - rewrite (broadcast_unfold _ _ _ _ Hg) in Hin.
    apply elem_of_app in Hin as [Hin|Hin%list_elem_of_singleton].
    + by apply list_elem_of_fmap in Hin as (c & ? & _).
    + injection Hin as -> -> ->. simpl.
      split; [apply filter_split_length|done].
  - unfold broadcastToSubscribers in Hin. rewrite Hg in Hin.
    by apply elem_of_nil in Hin.
Qed.

(** ** Calm runs *)

(** X12.  On every run from the initial state in which no [subscribe] frame
    for a topic is handled while an [unsubscribe] of that topic waits for
    Redis, the two indices agree after the run: a socket is in a topic's
    subscriber set exactly when the topic is in the socket's set.  This
    holds whatever Redis answers, and whenever. *)
Theorem duality_on_calm_runs (es : list Event) :
  calm initial es → Duality (run initial es).1.
Proof. apply calm_run_Duality; [apply Inv_initial|apply Settled_initial]. Qed.

(** * Start-up *)

(** X13.  [start] tries the publisher's connection only after the
    subscriber client has connected; its promise is fulfilled exactly when
    both connections succeed, and then the info line is logged; otherwise
    one error line is logged and the promise is rejected, which the caller
    catches and prints. *)
Theorem start_connects_in_order (connects : RedisHandle → bool) :
  (Connect redisPublisher ∈ (start connects).1
   ↔ connects redisClient = true)
  ∧ ((start connects).2 = Fulfilled
     ↔ connects redisClient = true ∧ connects redisPublisher = true)
  ∧ (StartLog info "Redis connections established" ∈ (start connects).1
     ↔ (start connects).2 = Fulfilled)
  ∧ (StartLog error "Failed to connect to Redis" ∈ (start connects).1
     ↔ (start connects).2 = Rejected)
  ∧ (ConsoleError ∈ main connects ↔ (start connects).2 = Rejected).
Proof.
  unfold main, start.
  destruct (connects redisClient), (connects redisPublisher); simpl;
    rewrite ?elem_of_cons, ?elem_of_nil;
    intuition (try discriminate; try congruence).
Qed.

(** * Configuration *)







Lemma digits_value_seen (text : list N) :
  ∀ acc, is_Some (digits_value true acc text).
Proof.
  induction text as [|c text IH]; intros acc; simpl; [by eexists|].
  destruct (digit c); [apply IH|by eexists].
Qed.





(** Every integer the model gives as a port is a Number of its own: no two
    values [Num] of the port stand for one double. *)
Lemma port_from_exact (name : string) (env : gmap string (list N))
    (negative : bool) (m : N) :
  port_from name env = Num negative m → (m ≤ max_exact)%N.
Proof.
  assert (Hparse : ∀ text, parseInt10 text = Num negative m →
                           (m ≤ max_exact)%N).
  { intros text. unfold parseInt10.
    destruct (signed (trimStart text)) as [neg body].
    destruct (digits_value false 0 body) as [k|]; [|done].
    unfold toNumber. destruct (k <=? max_exact)%N eqn:Hk; [|done].
    intros [= _ <-]. by apply N.leb_le. }
  unfold port_from. destruct (env !! name) as [[|c rest]|].
  - intros [= _ <-]. by vm_compute.
  - apply Hparse.
  - intros [= _ <-]. by vm_compute.
Qed.


(** X15.  The port is [NaN] exactly when the variable holds a text that is
    not empty and in which, after leading white space and one optional sign,
    no digit follows.  It is never [NaN] because the variable is unset or
    empty: then it is 5000. *)
Theorem port_is_NaN_without_a_digit
    (name : string) (env : gmap string (list N)) :
  (port_from name env = NaN
   ↔ ∃ text, env !! name = Some text ∧ text ≠ []
       ∧ ((signed (trimStart text)).2 = []
          ∨ ∃ c r, (signed (trimStart text)).2 = c :: r ∧ digit c = None))
  ∧ (env !! name = None ∨ env !! name = Some [] →
     port_from name env = Num false 5000).
Proof.
  assert (Hbody : ∀ body,
            digits_value false 0 body = None
            ↔ body = [] ∨ ∃ c r, body = c :: r ∧ digit c = None).
  { intros [|c r]; simpl; [split; [by left|done]|].
    destruct (digit c) as [d|] eqn:Hc.
    - destruct (digits_value_seen r (10 * 0 + d)) as [m Hm]. rewrite Hm.
      split; [done|].
      intros [?|(c' & r' & [= <- <-] & Hc')]; [done|congruence].
    - split; [|done]. intros _. right. by exists c, r. }
  assert (Hparse : ∀ text,
            parseInt10 text = NaN
            ↔ digits_value false 0 (signed (trimStart text)).2 = None).
  { intros text. unfold parseInt10.
    destruct (signed (trimStart text)) as [neg body]. simpl.
    destruct (digits_value false 0 body) as [m|]; [|done].
    unfold toNumber. by destruct (m <=? max_exact)%N. }
  split.
  - unfold port_from. destruct (env !! name) as [[|c rest]|] eqn:Hv.
    + split; [done|]. by intros (text & [= <-] & Hne & _).
    + rewrite Hparse, Hbody. split.
      * intros H. by exists (c :: rest).
      * by intros (text & [= <-] & _ & H).
    + split; [done|]. by intros (text & ? & _).
  - unfold port_from. by intros [-> | ->].
Qed.

(** X16.  The configuration does not tell an unset variable from one that
    holds the empty text: removing such a variable from the environment
    changes neither the port nor any of the three Redis credentials. *)
Theorem empty_variables_count_as_unset
    (name k : string) (env : gmap string (list N)) :
  env !! k = Some [] →
  port_from name (delete k env) = port_from name env
  ∧ REDIS_CREDENTIALS (delete k env) = REDIS_CREDENTIALS env.
Proof.
  intros Hk.
  assert (Hor : ∀ v, or_empty (delete k env !! v) = or_empty (env !! v)).
  { intros v. destruct (decide (k = v)) as [->|Hne].
    - by rewrite lookup_delete_eq, Hk.
    - by rewrite lookup_delete_ne. }
  split.
  - unfold port_from. destruct (decide (k = name)) as [->|Hne].
    + by rewrite lookup_delete_eq, Hk.
    + by rewrite lookup_delete_ne.
  - unfold REDIS_CREDENTIALS. by rewrite !Hor.
Qed.

(** * The older class and the current one *)

Lemma calls_app (a b : list Effect) : calls (a ++ b) = calls a ++ calls b.
Proof. apply filter_app. Qed.

Lemma Legacy_calls_app (a b : list Legacy.Output) :
  Legacy.calls (a ++ b) = Legacy.calls a ++ Legacy.calls b.
Proof. apply omap_app. Qed.

Ltac same_router_goal :=
  unfold same_router in *; simpl in *; intuition congruence.

Ltac legacy_agree :=
  simpl; split; [same_router_goal|]; split; [done|];
  split; [reflexivity|done].

Lemma legacy_handleSubscription (s1 s2 : State) (ws : WebSocket) (sym : JsVal) :
  same_router s1 s2 →
  same_router (Legacy.handleSubscription s1 ws sym).1.1
              (handleSubscription s2 ws sym).1.1
  ∧ (Legacy.handleSubscription s1 ws sym).2 = (handleSubscription s2 ws sym).2
  ∧ Legacy.calls (Legacy.handleSubscription s1 ws sym).1.2
    = calls (handleSubscription s2 ws sym).1.2
  ∧ usersCount (Legacy.handleSubscription s1 ws sym).1.1 = usersCount s1.
Proof.
  intros HR. pose proof HR as (Hg & Hc & _).
  unfold Legacy.handleSubscription, handleSubscription. rewrite Hc.
  destruct (clientSubscriptions s2 !! ws) as [cur|]; [|legacy_agree].
  destruct (decide (sym ∈ cur)); [legacy_agree|]. simpl. rewrite Hg.
  destruct (globalSubscriptions s2 !! sym); legacy_agree.
Qed.

Lemma legacy_handleUnsubscription (s1 s2 : State) (ws : WebSocket)
    (sym : JsVal) :
  same_router s1 s2 →
  same_router (Legacy.handleUnsubscription s1 ws sym).1.1
              (handleUnsubscription s2 ws sym).1.1
  ∧ (Legacy.handleUnsubscription s1 ws sym).2
    = (handleUnsubscription s2 ws sym).2
  ∧ Legacy.calls (Legacy.handleUnsubscription s1 ws sym).1.2
    = calls (handleUnsubscription s2 ws sym).1.2
  ∧ usersCount (Legacy.handleUnsubscription s1 ws sym).1.1 = usersCount s1.
Proof.
  intros HR. pose proof HR as (Hg & Hc & _).
  unfold Legacy.handleUnsubscription, handleUnsubscription. rewrite Hc.
  destruct (clientSubscriptions s2 !! ws) as [cur|]; [|legacy_agree].
  destruct (decide (sym ∈ cur)); [|legacy_agree]. simpl. rewrite Hg.
  destruct (globalSubscriptions s2 !! sym) as [g|]; [|legacy_agree].
  destruct (decide (Set_size (Set_delete ws g) = 0)); legacy_agree.
Qed.

Lemma legacy_suspend (s1 s2 : State) (k : Resume) (who : Caller) :
  same_router s1 s2 → same_router (suspend k who s1) (suspend k who s2).
Proof. intros HR. same_router_goal. Qed.

Lemma legacy_disconnect_loop (ws : WebSocket) (l : list JsVal) :
  ∀ acc1 acc2,
    same_router acc1.1 acc2.1 → Legacy.calls acc1.2 = calls acc2.2 →
    same_router (foldl (Legacy.disconnect_each ws) acc1 l).1
                (foldl (disconnect_each ws) acc2 l).1
    ∧ Legacy.calls (foldl (Legacy.disconnect_each ws) acc1 l).2
      = calls (foldl (disconnect_each ws) acc2 l).2
    ∧ usersCount (foldl (Legacy.disconnect_each ws) acc1 l).1
      = usersCount acc1.1.
Proof.
  induction l as [|a l IH]; intros [s1 o1] [s2 o2] HR Hout; [done|].
  cbn [foldl].
  destruct (legacy_handleUnsubscription s1 s2 ws a HR)
    as (HR' & Hc & Hcalls & Hu).
  unfold Legacy.disconnect_each, disconnect_each.
  destruct (Legacy.handleUnsubscription s1 ws a) as [[s1' e1] c1].
  destruct (handleUnsubscription s2 ws a) as [[s2' e2] c2].
  simpl in HR', Hc, Hcalls, Hu, Hout. subst c2.
  destruct c1; simpl.
  - destruct (IH (s1', o1 ++ e1) (s2', o2 ++ e2)) as (? & ? & Hu');
      [done|simpl; by rewrite calls_app, Legacy_calls_app, Hout, Hcalls|].
    split; [done|]. split; [done|]. etrans; [exact Hu'|exact Hu].
  - destruct (IH (s1', o1 ++ e1 ++ [Legacy.Call UnhandledRejection])
                (s2', o2 ++ e2 ++ [UnhandledRejection])) as (? & ? & Hu');
      [done
      |simpl; by rewrite !calls_app, !Legacy_calls_app, Hout, Hcalls|].
    split; [done|]. split; [done|]. etrans; [exact Hu'|exact Hu].
  - destruct (IH (suspend k FromDisconnection s1', o1 ++ e1)
                (suspend k FromDisconnection s2', o2 ++ e2)) as (? & ? & Hu');
      [by apply legacy_suspend
      |simpl; by rewrite calls_app, Legacy_calls_app, Hout, Hcalls|].
    split; [done|]. split; [done|]. etrans; [exact Hu'|exact Hu].
Qed.

Lemma legacy_broadcast (s1 s2 : State) (sym : JsVal) (msg : string) :
  same_router s1 s2 →
  Legacy.calls (Legacy.broadcastToSubscribers s1 sym msg)
  = calls (broadcastToSubscribers s2 sym msg).
Proof.
  intros (Hg & _ & Hr & _).
  destruct (globalSubscriptions s2 !! sym) as [g|] eqn:Hg2.
  - rewrite (broadcast_unfold _ _ _ _ Hg2). rewrite calls_app.
    unfold Legacy.broadcastToSubscribers. rewrite Hg, Hg2, Hr.
    change (calls [LogBroadcast _ _ _]) with (@nil Effect).
    rewrite app_nil_r. unfold envelope.
    set (data := {| event := _; stockSymbol := _; message := _ |}).
    assert (Hnew : ∀ l : list WebSocket,
              calls ((λ c, Send c data) <$> l)
              = (λ c, Send c data) <$> l).
    { induction l as [|c l IH]; [done|].
      rewrite fmap_cons. unfold calls in *.
      rewrite filter_cons, decide_True by (simpl; tauto). by rewrite IH. }
    rewrite Hnew.
    assert (Hold : ∀ (l : list WebSocket) sent,
              Legacy.calls
                (foldl (Legacy.broadcast_each (readyState s2) data) sent l)
              = Legacy.calls sent
                ++ ((λ c, Send c data) <$> filter (isOpen s2) l)).
    { induction l as [|c l IH]; intros sent; [by rewrite app_nil_r|].
      cbn [foldl]. rewrite IH. unfold Legacy.broadcast_each.
      rewrite filter_cons. unfold isOpen at 2.
      destruct (decide (readyState s2 !! c = Some OPEN)).
      - rewrite Legacy_calls_app, <- app_assoc. done.
      - done. }
    by rewrite Hold.
  - unfold Legacy.broadcastToSubscribers, broadcastToSubscribers.
    by rewrite Hg, Hg2.
Qed.

Lemma legacy_step (s1 s2 : State) (e : Event) :
  same_router s1 s2 →
  same_router (Legacy.step s1 e).1 (step s2 e).1
  ∧ Legacy.calls (Legacy.step s1 e).2 = calls (step s2 e).2
  ∧ usersCount (Legacy.step s1 e).1
    = (usersCount s1 + if is_connection e then 1 else 0)%Z.
Proof.
  intros HR. destruct e as [|ws frame|ws|ws|sym msg|p ok]; simpl.
  - split; [same_router_goal|]. by split.
  - unfold Legacy.onMessage, onMessage.
    destruct frame as [| |type sym];
      [split; [done|split; [done|simpl; lia]]..|].
    assert (Hh :
      same_router (Legacy.handleMessage s1 ws type sym).1.1
                  (handleMessage s2 ws type sym).1.1
      ∧ (Legacy.handleMessage s1 ws type sym).2
        = (handleMessage s2 ws type sym).2
      ∧ Legacy.calls (Legacy.handleMessage s1 ws type sym).1.2
        = calls (handleMessage s2 ws type sym).1.2
      ∧ usersCount (Legacy.handleMessage s1 ws type sym).1.1 = usersCount s1).
    { unfold Legacy.handleMessage, handleMessage.
      destruct (decide _); [by apply legacy_handleSubscription|].
      destruct (decide _); [by apply legacy_handleUnsubscription|].
      legacy_agree. }
    destruct (Legacy.handleMessage s1 ws type sym) as [[s1' e1] c1].
    destruct (handleMessage s2 ws type sym) as [[s2' e2] c2].
    destruct Hh as (HR' & Hc & Hcalls & Hu). simpl in *. subst c2.
    destruct c1; simpl; rewrite ?calls_app, ?Legacy_calls_app;
      (split; [by try apply legacy_suspend|]);
      (split; [simpl; rewrite ?app_nil_r; congruence|lia]).
  - split; [same_router_goal|]. split; [done|lia].
  - unfold Legacy.handleClientDisconnection, handleClientDisconnection.
    set (t1 := with_readyState _ s1). set (t2 := with_readyState _ s2).
    assert (HR0 : same_router t1 t2) by (subst t1 t2; same_router_goal).
    set (u2 := with_usersCount _ t2).
    assert (HR1 : same_router t1 u2) by (subst u2; same_router_goal).
    pose proof HR1 as (_ & Hc & _). rewrite Hc.
    assert (Hloop :
      same_router
        (match clientSubscriptions u2 !! ws with
         | Some clientSubs =>
             foldl (Legacy.disconnect_each ws)
               (t1, [Legacy.ConsoleLog "Client disconnected"]) clientSubs
         | None => (t1, [Legacy.ConsoleLog "Client disconnected"])
         end).1
        (match clientSubscriptions u2 !! ws with
         | Some clientSubs =>
             foldl (disconnect_each ws)
               (u2, [Log info "Client disconnected"]) clientSubs
         | None => (u2, [Log info "Client disconnected"])
         end).1
      ∧ Legacy.calls
          (match clientSubscriptions u2 !! ws with
           | Some clientSubs =>
               foldl (Legacy.disconnect_each ws)
                 (t1, [Legacy.ConsoleLog "Client disconnected"]) clientSubs
           | None => (t1, [Legacy.ConsoleLog "Client disconnected"])
           end).2
        = calls
            (match clientSubscriptions u2 !! ws with
             | Some clientSubs =>
                 foldl (disconnect_each ws)
                   (u2, [Log info "Client disconnected"]) clientSubs
             | None => (u2, [Log info "Client disconnected"])
             end).2
      ∧ usersCount
          (match clientSubscriptions u2 !! ws with
           | Some clientSubs =>
               foldl (Legacy.disconnect_each ws)
                 (t1, [Legacy.ConsoleLog "Client disconnected"]) clientSubs
           | None => (t1, [Legacy.ConsoleLog "Client disconnected"])
           end).1 = usersCount s1).
    { destruct (clientSubscriptions u2 !! ws) as [cur|];
        [|split; [done|]; split; [reflexivity|done]].
      by apply legacy_disconnect_loop. }
    destruct (match clientSubscriptions u2 !! ws with
              | Some clientSubs =>
                  foldl (Legacy.disconnect_each ws) _ clientSubs
              | None => _ end) as [a1 o1].
    destruct (match clientSubscriptions u2 !! ws with
              | Some clientSubs => foldl (disconnect_each ws) _ clientSubs
              | None => _ end) as [a2 o2].
    destruct Hloop as (HR2 & Hcalls & Hu). simpl in *.
    split; [same_router_goal|]. split; [done|lia].
  - split; [done|]. split; [by apply legacy_broadcast|lia].
  - unfold Legacy.onRedisReply, onRedisReply.
    pose proof HR as (_ & _ & _ & _ & Hp & _). rewrite Hp.
    destruct (pending s2 !! p) as [[k who]|];
      [|split; [done|split; [done|simpl; lia]]].
    destruct ok.
    + destruct k, who; simpl;
        (split; [same_router_goal|split; [done|lia]]).
    + destruct who; simpl; (split; [same_router_goal|split; [done|lia]]).
Qed.

(** X18.  The older class and the current one do the same things apart from
    what they print: after any sequence of events from the initial state the
    two indices, the ready states and the suspended calls are the same, and
    so are, in order, the Redis calls, the frames sent and the unhandled
    rejections.  The older class never decrements [usersCount], which there
    is the number of connections ever made. *)
Theorem legacy_class_makes_the_same_calls (es : list Event) :
  same_router (Legacy.run initial es).1 (run initial es).1
  ∧ Legacy.calls (Legacy.run initial es).2 = calls (run initial es).2
  ∧ usersCount (Legacy.run initial es).1 = Z.of_nat (connections_of es).
Proof.
  assert (H : ∀ s1 s2, same_router s1 s2 →
            same_router (Legacy.run s1 es).1 (run s2 es).1
            ∧ Legacy.calls (Legacy.run s1 es).2 = calls (run s2 es).2
            ∧ usersCount (Legacy.run s1 es).1
              = (usersCount s1 + Z.of_nat (connections_of es))%Z).
  { induction es as [|e es IH]; intros s1 s2 HR.
    - split; [done|]. split; [done|]. unfold connections_of. simpl. lia.
    - cbn [Legacy.run run].
      destruct (legacy_step s1 s2 e HR) as (HR1 & Hc1 & Hu1).
      destruct (Legacy.step s1 e) as [t1 o1].
      destruct (step s2 e) as [t2 o2]. simpl in HR1, Hc1, Hu1.
      destruct (IH t1 t2 HR1) as (HR2 & Hc2 & Hu2).
      destruct (Legacy.run t1 es) as [u1 p1].
      destruct (run t2 es) as [u2 p2]. simpl in *.
      split; [done|]. split.
      + rewrite calls_app, Legacy_calls_app. congruence.
      + rewrite Hu2, Hu1. unfold connections_of. rewrite filter_cons.
        destruct e; simpl; lia. }
  destruct (H initial initial) as (? & ? & Hu); [done|].
  split; [done|]. split; [done|]. by rewrite Hu.
Qed.

(** X19.  The older [start] makes the same connection attempts as the
    current one, in the same order, but its promise is fulfilled even when a
    connection fails; the current one is rejected exactly then. *)
Theorem legacy_start_swallows_the_failure (connects : RedisHandle → bool) :
  Legacy.connections (Legacy.start connects).1
  = connections (start connects).1
  ∧ (Legacy.start connects).2 = Fulfilled
  ∧ ((start connects).2 = Rejected
     ↔ connects redisClient = false ∨ connects redisPublisher = false).
Proof.
  unfold Legacy.start, start.
  destruct (connects redisClient), (connects redisPublisher); simpl;
    intuition (try discriminate; try congruence).
Qed.

(** * Each subscriber once *)

Lemma count_absent {A} `{EqDecision A} (x : A) (l : list A) :
  x ∉ l → filter (λ y, y = x) l = [].
Proof.
  induction l as [|a l IH]; [done|].
  intros [Hne Hx]%not_elem_of_cons.
  rewrite filter_cons, decide_False by done. by apply IH.
Qed.

Lemma count_in_NoDup {A} `{EqDecision A} (x : A) (l : list A) :
  NoDup l → x ∈ l → length (filter (λ y, y = x) l) = 1.
Proof.
  induction 1 as [|a l Ha Hl IH]; intros Hx; [by apply elem_of_nil in Hx|].
  rewrite filter_cons. destruct (decide (a = x)) as [->|Hne].
  - simpl. by rewrite count_absent.
  - apply IH. by apply elem_of_cons in Hx as [->|Hx].
Qed.

(** X17.  In every state the server can reach, when the listener of a topic
    runs, each open subscriber of the topic is sent the envelope exactly
    once, and no socket is sent two frames. *)
Theorem broadcast_sends_each_open_subscriber_once
    (s : State) (sym : JsVal) (payload : string) (ws : WebSocket) :
  reachable s → in_global s sym ws → isOpen s ws →
  length (filter (λ e, e = Send ws (envelope sym payload))
            (step s (RedisMessage sym payload)).2) = 1
  ∧ NoDup (filter is_send (step s (RedisMessage sym payload)).2).
Proof.
  intros Hr (g & Hg & Hws) Hopen.
  pose proof (reachable_NoDup s Hr sym g Hg) as Hnd.
  assert (Hinj : Inj (=) (=) (λ c : WebSocket, Send c (envelope sym payload)))
    by (by intros x y [= ->]).
  assert (Hsends : NoDup ((λ c, Send c (envelope sym payload))
                            <$> filter (isOpen s) g)).
  { apply (NoDup_fmap_2 _). by apply NoDup_filter. }
  destruct (open_subscribers_are_sent s sym payload) as [_ Hfilter].
  unfold subscribers_of in Hfilter. rewrite Hg in Hfilter.
  split; [|rewrite Hfilter; exact Hsends].
  simpl. rewrite (broadcast_unfold _ _ _ _ Hg), filter_app, length_app.
  rewrite (count_in_NoDup _ _ Hsends).
  - by rewrite filter_cons, decide_False.
  - apply list_elem_of_fmap. exists ws. split; [done|].
    by apply list_elem_of_filter.
Qed.

(** * The further properties at concrete inputs *)

Lemma subscribers_hold_their_topics_witness :
  reachable one_subscribed
  ∧ in_global one_subscribed AAPL 0
  ∧ in_client one_subscribed 0 AAPL.
Proof.
  assert (Hr : reachable one_subscribed) by (eexists; reflexivity).
  assert (Hg : in_global one_subscribed AAPL 0).
  { exists [0]. split; [vm_compute; reflexivity|apply list_elem_of_here]. }
  split; [exact Hr|]. split; [exact Hg|].
  exact (subscribers_hold_their_topics one_subscribed AAPL 0 Hr Hg).
Defined.

Lemma frames_are_sent_only_as_fan_out_witness :
  Send 1 (envelope AAPL "tick")
    ∈ (step one_closing_one_open (RedisMessage AAPL "tick")).2
  ∧ ∃ sym payload,
      RedisMessage AAPL "tick" = RedisMessage sym payload
      ∧ in_global one_closing_one_open sym 1
      ∧ isOpen one_closing_one_open 1
      ∧ envelope AAPL "tick" = envelope sym payload.
Proof.
  assert (Hin : Send 1 (envelope AAPL "tick")
                  ∈ (step one_closing_one_open (RedisMessage AAPL "tick")).2)
    by (vm_compute; apply list_elem_of_here).
  split; [exact Hin|].
  exact (frames_are_sent_only_as_fan_out one_closing_one_open
           (RedisMessage AAPL "tick") 1 (envelope AAPL "tick") Hin).
Defined.

Lemma no_frame_after_close_witness :
  reachable one_subscribed
  ∧ 0 < nextSocket one_subscribed
  ∧ Send 0 (envelope AAPL "tick")
      ∉ (run (step one_subscribed (Close 0)).1
           [RedisMessage AAPL "tick"; Message 0 (subscribeTo AAPL);
            RedisMessage AAPL "tock"]).2.
Proof.
  assert (Hr : reachable one_subscribed) by (eexists; reflexivity).
  assert (Hlt : 0 < nextSocket one_subscribed) by (vm_compute; lia).
  split; [exact Hr|]. split; [exact Hlt|].
  exact (no_frame_after_close one_subscribed 0 _ _ Hr Hlt).
Defined.

Lemma subscribe_then_unsubscribe_restores_indices_witness :
  clientSubscriptions one_connected !! 0 = Some []
  ∧ (AAPL ∉ @nil JsVal)
  ∧ globalSubscriptions one_connected !! AAPL = None
  ∧ globalSubscriptions
      (run one_connected (subscribe_and_leave one_connected 0 AAPL)).1
    = globalSubscriptions one_connected.
Proof.
  assert (Hc : clientSubscriptions one_connected !! 0 = Some [])
    by (vm_compute; reflexivity).
  assert (Hn : AAPL ∉ @nil JsVal) by apply not_elem_of_nil.
  assert (Hg : globalSubscriptions one_connected !! AAPL = None)
    by (vm_compute; reflexivity).
  split; [exact Hc|]. split; [exact Hn|]. split; [exact Hg|].
  exact (proj1 (proj2 (proj1 (subscribe_then_unsubscribe_restores_indices
                                one_connected 0 AAPL [] Hc Hn) Hg))).
Defined.

Lemma unsubscribe_keeps_upstream_for_the_others_witness :
  clientSubscriptions two_subscribed !! 0 = Some [AAPL]
  ∧ globalSubscriptions two_subscribed !! AAPL = Some [0; 1]
  ∧ in_global (step two_subscribed (Message 0 (unsubscribeFrom AAPL))).1
      AAPL 1.
Proof.
  assert (Hc : clientSubscriptions two_subscribed !! 0 = Some [AAPL])
    by (vm_compute; reflexivity).
  assert (Hg : globalSubscriptions two_subscribed !! AAPL = Some [0; 1])
    by (vm_compute; reflexivity).
  assert (Hin : AAPL ∈ [AAPL]) by apply list_elem_of_here.
  assert (Hother : 1 ∈ [0; 1])
    by (apply list_elem_of_further, list_elem_of_here).
  assert (Hne : 1 ≠ 0) by lia.
  split; [exact Hc|]. split; [exact Hg|].
  exact (proj1 (proj2 (unsubscribe_keeps_upstream_for_the_others
                         two_subscribed 0 1 AAPL [AAPL] [0; 1]
                         Hc Hin Hg Hother Hne))).
Defined.

Lemma frames_of_unknown_sockets_change_nothing_witness :
  clientSubscriptions (step one_subscribed (Close 0)).1 !! 0 = None
  ∧ (step (step one_subscribed (Close 0)).1 (Message 0 (subscribeTo AAPL))).1
    = (step one_subscribed (Close 0)).1.
Proof.
  assert (Hn : clientSubscriptions (step one_subscribed (Close 0)).1 !! 0
               = None) by (vm_compute; reflexivity).
  split; [exact Hn|].
  exact (proj1 (frames_of_unknown_sockets_change_nothing
                  (step one_subscribed (Close 0)).1 0 (subscribeTo AAPL) Hn)).
Defined.

Lemma unsubscribe_without_entry_still_forgets_the_topic_witness :
  clientSubscriptions (run initial late_reply).1 !! 1 = Some [AAPL]
  ∧ globalSubscriptions (run initial late_reply).1 !! AAPL = None
  ∧ ¬ in_client
        (step (run initial late_reply).1 (Message 1 (unsubscribeFrom AAPL))).1
        1 AAPL.
Proof.
  assert (Hc : clientSubscriptions (run initial late_reply).1 !! 1
               = Some [AAPL]) by (vm_compute; reflexivity).
  assert (Hg : globalSubscriptions (run initial late_reply).1 !! AAPL = None)
    by (vm_compute; reflexivity).
  assert (Hin : AAPL ∈ [AAPL]) by apply list_elem_of_here.
  split; [exact Hc|]. split; [exact Hg|].
  exact (proj2 (unsubscribe_without_entry_still_forgets_the_topic
                  (run initial late_reply).1 1 AAPL [AAPL] Hc Hin Hg)).
Defined.

Lemma redis_subscribe_only_for_a_first_subscriber_witness :
  RedisSubscribe (channel AAPL)
    ∈ (step one_connected (Message 0 (subscribeTo AAPL))).2
  ∧ ∃ ws sym cur,
      Message 0 (subscribeTo AAPL) = Message ws (subscribeTo sym)
      ∧ channel AAPL = channel sym
      ∧ clientSubscriptions one_connected !! ws = Some cur ∧ (sym ∉ cur)
      ∧ globalSubscriptions one_connected !! sym = None
      ∧ globalSubscriptions
          (step one_connected (Message 0 (subscribeTo AAPL))).1 !! sym
        = Some [ws].
Proof.
  assert (Hin : RedisSubscribe (channel AAPL)
                  ∈ (step one_connected (Message 0 (subscribeTo AAPL))).2)
    by (vm_compute; apply list_elem_of_here).
  split; [exact Hin|].
  exact (redis_subscribe_only_for_a_first_subscriber one_connected
           (Message 0 (subscribeTo AAPL)) (channel AAPL) Hin).
Defined.

Lemma redis_unsubscribe_only_when_a_topic_empties_witness :
  RedisUnsubscribe (channel AAPL) ∈ (step one_subscribed (Close 0)).2
  ∧ ∃ ws sym,
      (Close 0 = Message ws (unsubscribeFrom sym) ∨ Close 0 = Close ws)
      ∧ channel AAPL = channel sym
      ∧ in_client one_subscribed ws sym
      ∧ globalSubscriptions (step one_subscribed (Close 0)).1 !! sym
        = Some [].
Proof.
  assert (Hin : RedisUnsubscribe (channel AAPL)
                  ∈ (step one_subscribed (Close 0)).2)
    by (vm_compute; apply list_elem_of_further, list_elem_of_here).
  split; [exact Hin|].
  exact (redis_unsubscribe_only_when_a_topic_empties one_subscribed
           (Close 0) (channel AAPL) Hin).
Defined.

Lemma usersCount_counts_the_connected_sockets_witness :
  closes_connected initial timely_reply
  ∧ usersCount (run initial timely_reply).1
    = Z.of_nat (size (clientSubscriptions (run initial timely_reply).1)).
Proof.
  assert (Hes : closes_connected initial timely_reply).
  { unfold timely_reply. cbn [closes_connected].
    repeat split; exists [AAPL]; vm_compute; reflexivity. }
  split; [exact Hes|].
  exact (usersCount_counts_the_connected_sockets timely_reply Hes).
Defined.

Lemma broadcast_counters_add_up_witness :
  LogBroadcast 1 1 2
    ∈ (step one_closing_one_open (RedisMessage AAPL "tick")).2
  ∧ 1 + 1 = 2.
Proof.
  assert (Hin : LogBroadcast 1 1 2
                  ∈ (step one_closing_one_open (RedisMessage AAPL "tick")).2)
    by (vm_compute; apply list_elem_of_further, list_elem_of_here).
  split; [exact Hin|].
  exact (proj1 (broadcast_counters_add_up one_closing_one_open AAPL "tick"
                  1 1 2 Hin)).
Defined.

Lemma duality_on_calm_runs_witness :
  calm initial timely_reply ∧ Duality (run initial timely_reply).1.
Proof.
  assert (Hcalm : calm initial timely_reply).
  { unfold timely_reply. cbn [calm].
    repeat split; try exact I;
      try (apply no_pending_no_overtaking; vm_compute; reflexivity);
      intros H; exact H. }
  split; [exact Hcalm|].
  exact (duality_on_calm_runs timely_reply Hcalm).
Defined.


Lemma empty_variables_count_as_unset_witness :
  ({["REDIS_URL" := []; "WS_PORT" := [56; 48]%N]} : gmap string (list N))
    !! "REDIS_URL" = Some []
  ∧ REDIS_CREDENTIALS
      (delete "REDIS_URL" {["REDIS_URL" := []; "WS_PORT" := [56; 48]%N]})
    = REDIS_CREDENTIALS {["REDIS_URL" := []; "WS_PORT" := [56; 48]%N]}.
Proof.
  assert (Hk : ({["REDIS_URL" := []; "WS_PORT" := [56; 48]%N]}
                  : gmap string (list N)) !! "REDIS_URL" = Some [])
    by (vm_compute; reflexivity).
  split; [exact Hk|].
  exact (proj2 (empty_variables_count_as_unset "WS_PORT" "REDIS_URL" _ Hk)).
Defined.

Lemma broadcast_sends_each_open_subscriber_once_witness :
  reachable one_closing_one_open
  ∧ in_global one_closing_one_open AAPL 1
  ∧ isOpen one_closing_one_open 1
  ∧ length (filter (λ e, e = Send 1 (envelope AAPL "tick"))
              (step one_closing_one_open (RedisMessage AAPL "tick")).2) = 1.
Proof.
  assert (Hr : reachable one_closing_one_open).
  { exists [Connection; Connection;
            Message 0 (subscribeTo AAPL); RedisReply 0 true;
            Message 1 (subscribeTo AAPL); Closing 0].
    vm_compute. reflexivity. }
  assert (Hg : in_global one_closing_one_open AAPL 1).
  { exists [0; 1]. split; [vm_compute; reflexivity|].
    apply list_elem_of_further, list_elem_of_here. }
  assert (Ho : isOpen one_closing_one_open 1) by (vm_compute; reflexivity).
  split; [exact Hr|]. split; [exact Hg|]. split; [exact Ho|].
  exact (proj1 (broadcast_sends_each_open_subscriber_once
                  one_closing_one_open AAPL "tick" 1 Hr Hg Ho)).
Defined.
